(** * Cluster load-balancing optimizer: shortest paths, greedy planner,
      annealing optimizer and migration simulator (main.cpp)

    The C++ program keeps its data in global arrays indexed by node id
    ([nodes], [adj_bandwidth], [dist], [next_hop]) and in two vectors
    ([tasks], [logs]).  The embedding passes that state explicitly.  An
    [int] is a [Z]: signed overflow is undefined in C++, so the model has no
    wrap-around and describes the runs in which no [int] overflows.  A
    global array is a total function on [Z] that starts at zero (an index
    outside the array is not an error of the model), a [vector] is a [list],
    and the [std::map] of the simulator is a [gmap].  Loops without a bound
    of their own count down from a [fuel] and answer [None] when it runs
    out. *)

From Stdlib Require Import QArith.
From stdpp Require Import gmap list numbers sorting.
Local Open Scope Z_scope.

(** ** Constants and global tables *)

Definition INF : Z := 1000000000.

Definition matrix := Z → Z → Z.

(** Globals are zero-initialised. *)
Definition zero_matrix : matrix := λ _ _, 0.

(** [m[i][j] = v] *)
Definition mset (m : matrix) (i j v : Z) : matrix :=
  λ a b, if (a =? i) && (b =? j) then v else m a b.

Record Tables := mkTables {
  adj_bandwidth : matrix;
  dist : matrix;
  next_hop : matrix
}.

(** [for (int i = lo; i <= hi; ++i) body] *)
Definition for_range {S : Type} (lo hi : Z) (body : Z → S → S) (s : S) : S :=
  foldl (λ acc i, body i acc) s (seqZ lo (hi - lo + 1)).

(** ** init *)

Definition init_cell (i j : Z) (tb : Tables) : Tables :=
  {| dist := mset (dist tb) i j (if i =? j then 0 else INF);
     adj_bandwidth := mset (adj_bandwidth tb) i j 0;
     next_hop := mset (next_hop tb) i j j |}.

Definition init (N : Z) (tb : Tables) : Tables :=
  for_range 1 N (λ i, for_range 1 N (λ j, init_cell i j)) tb.

Definition globals0 : Tables :=
  {| adj_bandwidth := zero_matrix; dist := zero_matrix; next_hop := zero_matrix |}.

(** ** readInput: the link lines *)

Record Link := mkLink { lu : Z; lv : Z; lc : Z; lb : Z }.

Definition read_link (tb : Tables) (l : Link) : Tables :=
  let adj := mset (mset (adj_bandwidth tb) (lv l) (lu l) (lb l)) (lu l) (lv l) (lb l) in
  let d :=
    if lc l <? dist tb (lu l) (lv l)
    then mset (mset (dist tb) (lv l) (lu l) (lc l)) (lu l) (lv l) (lc l)
    else dist tb in
  {| adj_bandwidth := adj; dist := d; next_hop := next_hop tb |}.

Definition read_links (links : list Link) (tb : Tables) : Tables :=
  foldl read_link tb links.

(** The tables as [readInput] leaves them: [init], then the [M] link lines. *)
Definition readInput_tables (N : Z) (links : list Link) : Tables :=
  read_links links (init N globals0).

(** ** floydWarshall *)

Definition relax (k i j : Z) (tb : Tables) : Tables :=
  if bool_decide (dist tb i k ≠ INF) && bool_decide (dist tb k j ≠ INF) then
    if dist tb i k + dist tb k j <? dist tb i j then
      {| adj_bandwidth := adj_bandwidth tb;
         dist := mset (dist tb) i j (dist tb i k + dist tb k j);
         next_hop := mset (next_hop tb) i j (next_hop tb i k) |}
    else tb
  else tb.

Definition pivot (N k : Z) (tb : Tables) : Tables :=
  for_range 1 N (λ i, for_range 1 N (λ j, relax k i j)) tb.

Definition floydWarshall (N : Z) (tb : Tables) : Tables :=
  for_range 1 N (pivot N) tb.

(** ** Nodes and tasks *)

Record Node := mkNode { nid : Z; capacity : Z; current_usage : Z }.

(** [Node nodes[MAXN]] *)
Definition Nodes := Z → Node.

Definition nodes0 : Nodes := λ _, mkNode 0 0 0.

Definition set_node (nodes : Nodes) (i : Z) (nd : Node) : Nodes :=
  λ a, if a =? i then nd else nodes a.

(** [nodes[i].current_usage = u] *)
Definition set_usage (nodes : Nodes) (i u : Z) : Nodes :=
  set_node nodes i (mkNode (nid (nodes i)) (capacity (nodes i)) u).

(** [nodes[i].current_usage += d] *)
Definition add_usage (nodes : Nodes) (i d : Z) : Nodes :=
  set_usage nodes i (current_usage (nodes i) + d).

(** A node line [(id, cap)] of the input. *)
Definition read_node (nodes : Nodes) (line : Z * Z) : Nodes :=
  set_node nodes line.1 (mkNode line.1 line.2 0).

Definition read_nodes (lines : list (Z * Z)) : Nodes :=
  foldl read_node nodes0 lines.

Record Task := mkTask {
  tid : Z;
  start_node : Z;
  demand : Z;
  end_node : Z;
  migration_cost : Z;
  path : list Z;
  path_idx : nat;
  current_pos_node : Z;
  finished : bool
}.

(** A task line [(tid, s_node, dem)]: the task starts assigned to its own
    start node, at cost zero. *)
Definition read_task (line : Z * Z * Z) : Task :=
  let '(id, s_node, dem) := line in
  mkTask id s_node dem s_node 0 [] 0 s_node false.

Definition read_tasks (lines : list (Z * Z * Z)) : list Task :=
  read_task <$> lines.

(** [t.end_node = e; t.migration_cost = c] *)
Definition assign (t : Task) (e c : Z) : Task :=
  mkTask (tid t) (start_node t) (demand t) e c
         (path t) (path_idx t) (current_pos_node t) (finished t).

(** The part of the global state that the planner and the optimizer share. *)
Record State := mkState { tasks : list Task; nodes : Nodes }.

(** ** solveAllocationGreedy *)

(** One turn of the scan over the targets; [best] is the pair
    [(best_node, min_cost)]. *)
Definition scan_target (dist : matrix) (nodes : Nodes) (t : Task)
    (target : Z) (best : Z * Z) : Z * Z :=
  if dist (start_node t) target =? INF then best
  else if current_usage (nodes target) + demand t <=? capacity (nodes target)
  then
    let cost := dist (start_node t) target * demand t in
    if (best.1 =? -1) || (cost <? best.2) then (target, cost) else best
  else best.

Definition best_target (N : Z) (dist : matrix) (nodes : Nodes) (t : Task)
  : Z * Z :=
  for_range 1 N (scan_target dist nodes t) (-1, -1).

(** The body of the loop over the sorted indices. *)
Definition place_task (N : Z) (dist : matrix) (st : State) (idx : nat) : State :=
  match tasks st !! idx with
  | None => st
  | Some t =>
      let best := best_target N dist (nodes st) t in
      if best.1 =? -1 then st
      else {| tasks := <[idx := assign t best.1 best.2]> (tasks st);
              nodes := add_usage (nodes st) best.1 (demand t) |}
  end.

Definition reset_usage (N : Z) (nodes : Nodes) : Nodes :=
  for_range 1 N (λ i nds, set_usage nds i 0) nodes.

(** The planner once [task_indices] is sorted into [order]. *)
Definition greedy_in_order (N : Z) (dist : matrix) (order : list nat)
    (st : State) : State :=
  foldl (place_task N dist)
        {| tasks := tasks st; nodes := reset_usage N (nodes st) |} order.

Definition demand_at (ts : list Task) (i : nat) : Z :=
  from_option demand 0 (ts !! i).

(** The order that the comparator [tasks[a].demand > tasks[b].demand] asks
    for: no later index has a larger demand than an earlier one. *)
Definition by_demand_desc (ts : list Task) (a b : nat) : Prop :=
  demand_at ts b ≤ demand_at ts a.

#[local] Instance by_demand_desc_dec ts a b : Decision (by_demand_desc ts a b).
Proof. unfold by_demand_desc. apply _. Defined.

(** What [std::sort] guarantees about [task_indices]; the order among equal
    demands is left to the library. *)
Definition sorted_indices (ts : list Task) (order : list nat) : Prop :=
  order ≡ₚ seq 0 (length ts) ∧ StronglySorted (by_demand_desc ts) order.

(** One such order, used to run the model. *)
Definition sort_by_demand (ts : list Task) : list nat :=
  merge_sort (by_demand_desc ts) (seq 0 (length ts)).

Definition solveAllocationGreedy (N : Z) (dist : matrix) (st : State) : State :=
  greedy_in_order N dist (sort_by_demand (tasks st)) st.

(** ** optimizeAllocationSA *)

Definition calculateTotalCost (dist : matrix) (ts : list Task) : Z :=
  foldl (λ total t, total + dist (start_node t) (end_node t) * demand t) 0 ts.

(** The program computes the temperature and the acceptance test in
    [double].  The embedding keeps them behind an interface: the three
    constants, the product, the comparison, and [metropolis cost_diff temp r]
    for the test [exp(-cost_diff / current_temp) > (double)r / RAND_MAX]. *)
Class DoubleArith := {
  double : Type;
  T_start : double;
  T_end : double;
  cooling_rate : double;
  one_half : double;
  dmul : double → double → double;
  dlt : double → double → bool;
  metropolis : Z → double → Z → bool
}.

Record Annealer `{DoubleArith} := mkAnnealer {
  sa_tasks : list Task;
  sa_nodes : Nodes;
  current_temp : double;
  current_cost : Z;
  best_cost : Z;
  best_assignment : list Z;
  iter : Z;
  rand_calls : nat
}.

(** The state on entry to the [while (true)] loop. *)
Definition sa_start `{DoubleArith} (dist : matrix) (st : State) : Annealer :=
  {| sa_tasks := tasks st;
     sa_nodes := nodes st;
     current_temp := T_start;
     current_cost := calculateTotalCost dist (tasks st);
     best_cost := calculateTotalCost dist (tasks st);
     best_assignment := end_node <$> tasks st;
     iter := 0;
     rand_calls := O |}.

(** [current_temp *= cooling_rate], then the reset below the floor. *)
Definition cool `{DoubleArith} (temp : double) : double :=
  let t := dmul temp cooling_rate in
  if dlt t T_end then dmul T_start one_half else t.

(** An iteration that ends in [continue], or that rejects the move: only
    the counters and (unless skipped) the temperature change. *)
Definition sa_skip `{DoubleArith} (s : Annealer) (temp : double) (calls : nat)
  : Annealer :=
  {| sa_tasks := sa_tasks s; sa_nodes := sa_nodes s;
     current_temp := temp;
     current_cost := current_cost s; best_cost := best_cost s;
     best_assignment := best_assignment s;
     iter := iter s + 1; rand_calls := (rand_calls s + calls)%nat |}.

(** An accepted move of task [t_idx] from [old_node] to [new_node]. *)
Definition sa_accept `{DoubleArith} (dist : matrix) (s : Annealer)
    (t_idx : nat) (t : Task) (new_node cost_diff : Z) (calls : nat) : Annealer :=
  let old_node := end_node t in
  let nodes1 := add_usage (sa_nodes s) old_node (- demand t) in
  let nodes2 := add_usage nodes1 new_node (demand t) in
  let t' := assign t new_node (dist (start_node t) new_node * demand t) in
  let tasks' := <[t_idx := t']> (sa_tasks s) in
  let cost' := current_cost s + cost_diff in
  let better := cost' <? best_cost s in
  {| sa_tasks := tasks'; sa_nodes := nodes2;
     current_temp := cool (current_temp s);
     current_cost := cost';
     best_cost := if better then cost' else best_cost s;
     best_assignment := if better then end_node <$> tasks' else best_assignment s;
     iter := iter s + 1; rand_calls := (rand_calls s + calls)%nat |}.

(** One pass through the loop body, after the time check.  [rnd k] is the
    value of the [k]-th call of [rand()] since [srand]; [%] is [Z.rem].  With
    no task at all the source divides by zero; the model then only counts the
    iteration. *)
Definition sa_body `{DoubleArith} (N : Z) (dist : matrix) (rnd : nat → Z)
    (s : Annealer) : Annealer :=
  let T := Z.of_nat (length (sa_tasks s)) in
  let t_idx := Z.to_nat (Z.rem (rnd (rand_calls s)) T) in
  match sa_tasks s !! t_idx with
  | None => sa_skip s (current_temp s) 2
  | Some t =>
      let old_node := end_node t in
      let new_node := Z.rem (rnd (S (rand_calls s))) N + 1 in
      if (new_node =? old_node) || (dist (start_node t) new_node =? INF)
      then sa_skip s (current_temp s) 2
      else if current_usage (sa_nodes s new_node) + demand t
              <=? capacity (sa_nodes s new_node)
      then
        let cost_diff := dist (start_node t) new_node * demand t
                         - dist (start_node t) old_node * demand t in
        if cost_diff <? 0
        then sa_accept dist s t_idx t new_node cost_diff 2
        else if metropolis cost_diff (current_temp s) (rnd (S (S (rand_calls s))))
        then sa_accept dist s t_idx t new_node cost_diff 3
        else sa_skip s (cool (current_temp s)) 3
      else sa_skip s (cool (current_temp s)) 2
  end.

(** The loop.  [deadline i] tells whether the time check made when [iter]
    is [i] finds [elapsed > time_limit]; the loop has no other exit, so the
    model counts passes down from [fuel]. *)
Fixpoint sa_loop `{DoubleArith} (fuel : nat) (N : Z) (dist : matrix)
    (rnd : nat → Z) (deadline : Z → bool) (s : Annealer) : option Annealer :=
  match fuel with
  | O => None
  | S fuel' =>
      if (Z.land (iter s) 1023 =? 0) && deadline (iter s) then Some s
      else sa_loop fuel' N dist rnd deadline (sa_body N dist rnd s)
  end.

(** The write-back of the best assignment after the loop. *)
Definition restore_task (dist : matrix) (best : list Z) (st : State) (i : nat)
  : State :=
  match tasks st !! i, best !! i with
  | Some t, Some e =>
      {| tasks := <[i := assign t e (dist (start_node t) e * demand t)]> (tasks st);
         nodes := add_usage (nodes st) e (demand t) |}
  | _, _ => st
  end.

Definition restore_best `{DoubleArith} (N : Z) (dist : matrix) (s : Annealer)
  : State :=
  foldl (restore_task dist (best_assignment s))
        {| tasks := sa_tasks s; nodes := reset_usage N (sa_nodes s) |}
        (seq 0 (length (sa_tasks s))).

Definition optimizeAllocationSA `{DoubleArith} (fuel : nat) (N : Z)
    (dist : matrix) (rnd : nat → Z) (deadline : Z → bool) (st : State)
  : option State :=
  restore_best N dist <$> sa_loop fuel N dist rnd deadline (sa_start dist st).

(** ** reconstructPath *)

(** The [while (curr != t.end_node)] loop of [reconstructPath]; the loop has
    no bound of its own, so the model counts iterations down from [fuel] and
    answers [None] when they run out. *)
Fixpoint follow (fuel : nat) (nh : matrix) (curr end_node : Z) (path : list Z)
  : option (list Z) :=
  if curr =? end_node then Some path
  else match fuel with
       | O => None
       | S fuel' =>
           let next := nh curr end_node in
           follow fuel' nh next end_node (path ++ [next])
       end.

Definition set_path (t : Task) (p : list Z) : Task :=
  mkTask (tid t) (start_node t) (demand t) (end_node t) (migration_cost t)
         p (path_idx t) (current_pos_node t) (finished t).

(** The nodes found are pushed onto the path the task already has. *)
Definition reconstructPath (fuel : nat) (nh : matrix) (t : Task) : option Task :=
  if start_node t =? end_node t then Some t
  else set_path t <$> follow fuel nh (start_node t) (end_node t) (path t).

(** ** simulateMigration *)

Record LogEntry := mkLog { time : Z; task_id : Z; from : Z; to : Z }.

(** The first loop: paths for the tasks that have to move. *)
Definition prepare_task (fuel : nat) (nh : matrix) (t : Task) : option Task :=
  if start_node t =? end_node t
  then Some (mkTask (tid t) (start_node t) (demand t) (end_node t)
                    (migration_cost t) (path t) (path_idx t)
                    (current_pos_node t) true)
  else
    t' ← reconstructPath fuel nh t;
    Some (mkTask (tid t') (start_node t') (demand t') (end_node t')
                 (migration_cost t') (path t') 0 (start_node t') false).

Definition prepare (fuel : nat) (nh : matrix) (ts : list Task)
  : option (list Task) :=
  mapM (prepare_task fuel nh) ts.

(** [t.path[t.path_idx]] *)
Definition next_node (t : Task) : Z := nth (path_idx t) (path t) 0.

Definition link_key (u v : Z) : Z :=
  if u <? v then u * 1000 + v else v * 1000 + u.

(** One turn of the loop that hands out the link slots of a time step.
    [acc] is [(link_usage, tasks_moved_indices)]; reading an absent key of
    the [std::map] creates it with the value 0, which the default stands
    for. *)
Definition try_move (adj : matrix) (ts : list Task)
    (acc : gmap Z Z * list nat) (i : nat) : gmap Z Z * list nat :=
  match ts !! i with
  | None => acc
  | Some t =>
      if finished t then acc
      else
        let u := current_pos_node t in
        let v := next_node t in
        let key := link_key u v in
        let bw := adj u v in
        let used := default 0 (acc.1 !! key) in
        if used <? bw then (<[key := used + 1]> acc.1, acc.2 ++ [i]) else acc
  end.

Definition select_moves (adj : matrix) (ts : list Task) : list nat :=
  (foldl (try_move adj ts) (∅, []) (seq 0 (length ts))).2.

(** The task after crossing to the next node of its path. *)
Definition advance (t : Task) : Task :=
  mkTask (tid t) (start_node t) (demand t) (end_node t) (migration_cost t)
         (path t) (S (path_idx t)) (next_node t)
         (if (length (path t) <=? S (path_idx t))%nat then true else finished t).

(** One turn of the loop that carries out the moves; [acc] is
    [(tasks, logs)]. *)
Definition move_task (current_time : Z) (acc : list Task * list LogEntry)
    (idx : nat) : list Task * list LogEntry :=
  match acc.1 !! idx with
  | None => acc
  | Some t =>
      (<[idx := advance t]> acc.1,
       acc.2 ++ [mkLog current_time (tid t) (current_pos_node t) (next_node t)])
  end.

Record Sim := mkSim {
  sim_tasks : list Task;
  logs : list LogEntry;
  current_time : Z
}.

(** The [while (any_unfinished)] loop.  It leaves through the first [break]
    when every task is finished and through the second when a step moved no
    task; in both cases the only thing done afterwards is
    [total_time_steps = current_time]. *)
Fixpoint sim_loop (fuel : nat) (adj : matrix) (s : Sim) : option Sim :=
  if forallb finished (sim_tasks s) then Some s
  else match fuel with
       | O => None
       | S fuel' =>
           let now := current_time s + 1 in
           match select_moves adj (sim_tasks s) with
           | [] => Some (mkSim (sim_tasks s) (logs s) now)
           | moved =>
               let r := foldl (move_task now) (sim_tasks s, logs s) moved in
               sim_loop fuel' adj (mkSim r.1 r.2 now)
           end
       end.

Definition total_time_steps (s : Sim) : Z := current_time s.

Definition simulateMigration (fuel : nat) (tb : Tables) (ts : list Task)
  : option Sim :=
  ts' ← prepare fuel (next_hop tb) ts;
  sim_loop fuel (adj_bandwidth tb) (mkSim ts' [] 0).

(** ** printOutput and main *)

Definition by_id (a b : Task) : Prop := tid a ≤ tid b.

#[local] Instance by_id_dec a b : Decision (by_id a b).
Proof. unfold by_id. apply _. Defined.

(** The output, one list of numbers per line. *)
Definition printOutput (N : Z) (st : State) (s : Sim) : list (list Z) :=
  let sorted_tasks := merge_sort by_id (sim_tasks s) in
  let total_migration_cost :=
    foldl (λ total t, total + migration_cost t) 0 sorted_tasks in
  ((λ t, [tid t; start_node t; end_node t; migration_cost t]) <$> sorted_tasks)
  ++ ((λ i, [nid (nodes st i); current_usage (nodes st i)]) <$> seqZ 1 N)
  ++ [[total_migration_cost]]
  ++ [[total_time_steps s]]
  ++ ((λ l, [time l; task_id l; from l; to l]) <$> logs s).

Record Input := mkInput {
  in_N : Z;
  node_lines : list (Z * Z);
  link_lines : list Link;
  task_lines : list (Z * Z * Z)
}.

(** What the run takes from its surroundings: the wall-clock time that seeds
    [rand()], the generator of the C library (seed to sequence of draws),
    and the outcome of each time check of the optimizer. *)
Record Surroundings := mkSurroundings {
  wall_time : Z;
  libc_rand : Z → nat → Z;
  deadline_at : Z → bool
}.

Definition main `{DoubleArith} (fuel : nat) (inp : Input) (env : Surroundings)
  : option (list (list Z)) :=
  let N := in_N inp in
  let tb := floydWarshall N (readInput_tables N (link_lines inp)) in
  let st0 := mkState (read_tasks (task_lines inp)) (read_nodes (node_lines inp)) in
  let st1 := solveAllocationGreedy N (dist tb) st0 in
  st2 ← optimizeAllocationSA fuel N (dist tb)
          (libc_rand env (wall_time env)) (deadline_at env) st1;
  s ← simulateMigration fuel tb (tasks st2);
  Some (printOutput N st2 s).

(** ** An instance to run the model

    Exact rational arithmetic stands in for [double] when the model is
    evaluated on an input.  The acceptance test is decided only where it
    needs no exponential: [exp(0) = 1] exceeds [r / RAND_MAX] for every draw
    [r] below [RAND_MAX].  A test with a positive [cost_diff] is answered
    by a rejection; none of the runs evaluated in this file reaches one. *)

Definition RAND_MAX : Z := 2147483647.

#[local] Instance exact_arith : DoubleArith := {|
  double := Q;
  T_start := Qmake 2000 1;
  T_end := Qmake 1 100000000;
  cooling_rate := Qmake 999 1000;
  one_half := Qmake 1 2;
  dmul := Qmult;
  dlt := λ x y, negb (Qle_bool y x);
  metropolis := λ cost_diff temp r, (cost_diff =? 0) && (r <? RAND_MAX)
|}.

(** ** Sample inputs *)

Definition links_demo : list Link :=
  [mkLink 1 2 4 1; mkLink 2 3 0 1; mkLink 1 3 7 2; mkLink 3 1 9 5].

(** Four nodes in a line 4 - 2 - 1 - 3; nodes 1 and 4 have no room, task 1
    (demand 2) starts on node 1 and task 2 (demand 1) on node 4. *)
Definition input_demo : Input :=
  mkInput 4 [(1, 0); (2, 2); (3, 3); (4, 0)]
            [mkLink 1 2 1 1; mkLink 1 3 1 1; mkLink 2 4 1 1]
            [(1, 1, 2); (2, 4, 1)].

Definition lines_demo : list (Z * Z * Z) := task_lines input_demo.

Definition nodes_demo : Nodes := read_nodes (node_lines input_demo).

Definition dist_demo : matrix :=
  dist (floydWarshall 4 (readInput_tables 4 (link_lines input_demo))).

(** Draws that propose task 1 for node 3 (a move at equal cost, accepted on
    the draw 0), then task 2 for node 2 (cheaper), then task 2 for node 2
    for ever. *)
Definition draws_demo : nat → Z :=
  λ k, match k with
       | 0%nat => 0
       | 1%nat => 2
       | 2%nat => 0
       | _ => 1
       end.

(** The time check fires at its second occurrence, after 1024 passes. *)
Definition deadline_demo : Z → bool := λ i, 1024 <=? i.

(** One task that has to go from node 1 to node 2 over the only link, once
    with bandwidth 0 and once with bandwidth 1. *)
Definition input_stall : Input :=
  mkInput 2 [(1, 0); (2, 5)] [mkLink 1 2 1 0] [(1, 1, 1)].

Definition input_flow : Input :=
  mkInput 2 [(1, 0); (2, 5)] [mkLink 1 2 1 1] [(1, 1, 1)].

(** Surroundings with the same generator.  In [env_early] the time check
    fires at once, in [env_late] and [env_late'] at its second occurrence;
    [env_early] and [env_late] also share the clock reading that seeds the
    generator. *)
Definition env_early : Surroundings :=
  mkSurroundings 0 (λ _, draws_demo) (λ _, true).



(** The planner's assignment on the sample input, the routing table of the
    three-node sample, and the result and output of two runs. *)
Definition planned_demo : State :=
  solveAllocationGreedy 4 dist_demo (mkState (read_tasks lines_demo) nodes_demo).

Definition next_hop_demo : matrix :=
  next_hop (floydWarshall 3 (readInput_tables 3 links_demo)).

Definition sim_demo : Sim :=
  mkSim [mkTask 1 1 2 2 2 [2] 1 2 true; mkTask 2 4 1 3 3 [2; 1; 3] 3 3 true]
        [mkLog 1 1 1 2; mkLog 1 2 4 2; mkLog 2 2 2 1; mkLog 3 2 1 3]
        3.


(** * Vocabulary of the statements *)

(** Two nested [for] loops visit the index pairs in row-major order. *)
Definition cells (N : Z) : list (Z * Z) :=
  list_prod (seqZ 1 N) (seqZ 1 N).

(** A relaxation through [k] fires for the cell [(a, b)]. *)
Definition improves (tb : Tables) (k a b : Z) : Prop :=
  dist tb a k ≠ INF ∧ dist tb k b ≠ INF ∧
  dist tb a k + dist tb k b < dist tb a b.

#[local] Instance improves_dec tb k a b : Decision (improves tb k a b).
Proof. unfold improves. apply _. Defined.

(** The link [l] joins [a] and [b], in either direction. *)
Definition joins (l : Link) (a b : Z) : Prop :=
  (lu l = a ∧ lv l = b) ∨ (lu l = b ∧ lv l = a).

#[local] Instance joins_dec l a b : Decision (joins l a b).
Proof. unfold joins. apply _. Defined.

(** [walk links i p c j]: the node sequence [p], started from [i], crosses
    one declared link per hop, the crossed links cost [c] together, and the
    walk ends in [j]. *)
Inductive walk (links : list Link) : Z → list Z → Z → Z → Prop :=
  | walk_here i : walk links i [] 0 i
  | walk_hop i n p c j l :
      l ∈ links → joins l i n → walk links n p c j →
      walk links i (n :: p) (lc l + c) j.

(** ** The invariant of the pivot loop

    [w] is the matrix of direct link costs (the [dist] that [readInput]
    leaves).  After the pivots [1..K], [dist] is bounded by [w], satisfies
    the triangle inequality through every pivot done so far, and
    [next_hop[i][j]] is a neighbour of [i] from which the rest of the way
    costs exactly the rest of [dist[i][j]].  [h] is a ghost hop count: it
    decreases along [next_hop], so following the table cannot cycle even
    over links of cost zero. *)

Record fw_inv (N : Z) (w : matrix) (K : Z) (tb : Tables) (h : Z → Z → nat) : Prop := {
  inv_range : ∀ i j, 1 ≤ i ≤ N → 1 ≤ j ≤ N → 0 ≤ dist tb i j ≤ INF;
  inv_diag : ∀ i, 1 ≤ i ≤ N → dist tb i i = 0;
  inv_le_w : ∀ i j, 1 ≤ i ≤ N → 1 ≤ j ≤ N → dist tb i j ≤ w i j;
  inv_tri : ∀ i j m, 1 ≤ i ≤ N → 1 ≤ j ≤ N → 1 ≤ m ≤ N → m ≤ K →
    dist tb i j ≤ dist tb i m + dist tb m j;
  inv_h0 : ∀ i, 1 ≤ i ≤ N → h i i = O;
  inv_hop : ∀ i j, 1 ≤ i ≤ N → 1 ≤ j ≤ N → i ≠ j → dist tb i j < INF →
    1 ≤ next_hop tb i j ≤ N ∧ next_hop tb i j ≠ i ∧
    w i (next_hop tb i j) < INF ∧
    (next_hop tb i j = j ∨ next_hop tb i j ≤ K) ∧
    dist tb i j = w i (next_hop tb i j) + dist tb (next_hop tb i j) j ∧
    h i j = S (h (next_hop tb i j) j)
}.

Definition hops0 : Z → Z → nat := λ a b, if bool_decide (a = b) then O else 1%nat.

Definition hops_after (N k : Z) (tb : Tables) (h : Z → Z → nat) : Z → Z → nat :=
  λ a b, if bool_decide ((1 ≤ a ≤ N ∧ 1 ≤ b ≤ N) ∧ improves tb k a b)
         then (h a k + h k b)%nat else h a b.

(** ** Planner *)

(** [target] can take the task: it is reachable from the start node and the
    demand fits under its capacity. *)
Definition feasible (dist : matrix) (nds : Nodes) (t : Task) (target : Z) : Prop :=
  dist (start_node t) target ≠ INF ∧
  current_usage (nds target) + demand t ≤ capacity (nds target).

Definition cost_to (dist : matrix) (t : Task) (target : Z) : Z :=
  dist (start_node t) target * demand t.

(** [b] is the node the claim describes: a feasible node of least cost, and
    the lowest node id among those of least cost. *)
Definition greedy_choice (N : Z) (dist : matrix) (nds : Nodes) (t : Task)
    (b : Z) : Prop :=
  1 ≤ b ≤ N ∧ feasible dist nds t b ∧
  ∀ target, 1 ≤ target ≤ N → feasible dist nds t target →
    cost_to dist t b ≤ cost_to dist t target ∧
    (cost_to dist t target = cost_to dist t b → b ≤ target).

(** What the scan of the targets has established after the nodes [1..n]. *)
Definition scan_ok (n : Z) (dist : matrix) (nds : Nodes) (t : Task)
    (best : Z * Z) : Prop :=
  (best.1 = -1 ∧ ∀ target, 1 ≤ target ≤ n → ¬ feasible dist nds t target) ∨
  (greedy_choice n dist nds t best.1 ∧ best.2 = cost_to dist t best.1).

(** ** Optimizer *)

Fixpoint Zsum (l : list Z) : Z :=
  match l with
  | [] => 0
  | x :: l' => x + Zsum l'
  end.

Definition task_cost (dist : matrix) (t : Task) : Z :=
  dist (start_node t) (end_node t) * demand t.

(** The total cost of the tasks [ts] when task [i] goes to [best !! i]. *)
Definition assignment_cost (dist : matrix) (ts : list Task) (best : list Z) : Z :=
  Zsum (zip_with (λ t e, dist (start_node t) e * demand t) ts best).

(** The total demand of the tasks assigned to node [n]. *)
Definition load (ts : list Task) (n : Z) : Z :=
  Zsum ((λ t, if end_node t =? n then demand t else 0) <$> ts).

(** The same for the assignment [best] of the tasks [ts]. *)
Definition assignment_load (ts : list Task) (best : list Z) (n : Z) : Z :=
  Zsum (zip_with (λ t e, if e =? n then demand t else 0) ts best).

(** What a task is given by the input and never changes afterwards. *)
Definition shape (t : Task) : Z * Z * Z := (tid t, start_node t, demand t).

(** The optimizer's state after [k] passes through the loop body. *)
Definition sa_run `{DoubleArith} (N : Z) (dist : matrix) (rnd : nat → Z)
    (k : nat) (s : Annealer) : Annealer :=
  Nat.iter k (sa_body N dist rnd) s.


(** What the optimizer keeps true from pass to pass, whatever the draws:
    the tasks keep their shape, [current_cost] is the cost of the current
    assignment, [best_cost] is the cost of [best_assignment] and never above
    the cost the optimizer started from. *)
Record sa_inv `{DoubleArith} (dist : matrix) (st : State) (s : Annealer)
  : Prop := {
  sa_shape : shape <$> sa_tasks s = shape <$> tasks st;
  sa_best_len : length (best_assignment s) = length (tasks st);
  sa_cost : current_cost s = calculateTotalCost dist (sa_tasks s);
  sa_best : best_cost s = assignment_cost dist (tasks st) (best_assignment s);
  sa_best_le : best_cost s ≤ calculateTotalCost dist (tasks st);
  sa_caps : ∀ n, capacity (sa_nodes s n) = capacity (nodes st n)
}.

(** The task [t] written back with the end node [e]. *)
Definition restored (dist : matrix) (t : Task) (e : Z) : Task :=
  assign t e (dist (start_node t) e * demand t).

(** Every task's end node, and every end node of the best assignment, is
    one that the reachability guards let through. *)
Definition sa_reach `{DoubleArith} (dist : matrix) (s : Annealer) : Prop :=
  (∀ i t, sa_tasks s !! i = Some t → dist (start_node t) (end_node t) ≠ INF) ∧
  (∀ i t e, sa_tasks s !! i = Some t → best_assignment s !! i = Some e →
            dist (start_node t) e ≠ INF).




(** ** Simulator *)

(** The log entry [l] records a crossing of the link between [a] and [b], in
    either direction, at the time step [tm]. *)
Definition crosses (tm a b : Z) (l : LogEntry) : Prop :=
  time l = tm ∧ ((from l = a ∧ to l = b) ∨ (from l = b ∧ to l = a)).

#[local] Instance crosses_dec tm a b l : Decision (crosses tm a b l).
Proof. unfold crosses. apply _. Defined.

Definition crossings (lg : list LogEntry) (tm a b : Z) : Z :=
  Z.of_nat (length (filter (crosses tm a b) lg)).

(** Node ids for which [link_key] tells unordered pairs apart. *)
Definition key_range (x : Z) : Prop := 0 ≤ x < 1000.

(** The next hop of the task [t] is over the link between [a] and [b]. *)
Definition heads_over (a b : Z) (t : Task) : Prop :=
  (current_pos_node t = a ∧ next_node t = b) ∨
  (current_pos_node t = b ∧ next_node t = a).

#[local] Instance heads_over_dec a b t : Decision (heads_over a b t).
Proof. unfold heads_over. apply _. Defined.

Definition heads_at (ts : list Task) (a b : Z) (i : nat) : Prop :=
  match ts !! i with
  | Some t => heads_over a b t
  | None => False
  end.

#[local] Instance heads_at_dec ts a b i : Decision (heads_at ts a b i).
Proof. unfold heads_at. destruct (ts !! i); apply _. Defined.


(** An unfinished task has a hop left, and it stands and moves on node ids
    in the key range. *)
Definition sim_wf (t : Task) : Prop :=
  finished t = false →
  (path_idx t < length (path t))%nat ∧
  key_range (current_pos_node t) ∧ Forall key_range (path t).

(** The entries that carrying out the moves [moved] adds to the log. *)
Definition move_entries (now : Z) (ts : list Task) (moved : list nat)
  : list LogEntry :=
  omap (λ i, (λ t, mkLog now (tid t) (current_pos_node t) (next_node t))
               <$> ts !! i) moved.

(** The hops that the unfinished tasks still have to make. *)
Definition hops_left (t : Task) : nat :=
  if finished t then O else (length (path t) - path_idx t)%nat.

Definition remaining (ts : list Task) : nat := sum_list (hops_left <$> ts).



(** ** Input lines that meet in one cell *)

(** The costs of the link lines that join [a] and [b], in input order. *)
Definition link_costs (links : list Link) (a b : Z) : list Z :=
  lc <$> filter (λ l, joins l a b) links.

(** The last link line that joins [a] and [b]. *)
Definition last_link (links : list Link) (a b : Z) : option Link :=
  last (filter (λ l, joins l a b) links).

(** The last node line for the id [i]. *)
Definition last_node_line (lines : list (Z * Z)) (i : Z) : option (Z * Z) :=
  last (filter (λ line, line.1 = i) lines).

(** ** Routes *)

(** [chain nh e curr p]: [p] lists the nodes that [next_hop] gives one after
    the other on the way from [curr] to [e], up to the first time [e] is
    met. *)
Fixpoint chain (nh : matrix) (e curr : Z) (p : list Z) : Prop :=
  match p with
  | [] => curr = e
  | n :: p' => curr ≠ e ∧ n = nh curr e ∧ chain nh e n p'
  end.

(** A task as [readInput] creates it, as far as the simulator is concerned:
    no path yet, and standing on its start node. *)
Definition fresh (t : Task) : Prop :=
  path t = [] ∧ path_idx t = O ∧ current_pos_node t = start_node t.

(** A task under simulation: it stands on the node of its route (the start
    node, then the path) that [path_idx] counts up to, the route ends on its
    end node, and it is finished exactly when the route is used up. *)
Definition on_route (t : Task) : Prop :=
  current_pos_node t = nth (path_idx t) (start_node t :: path t) 0 ∧
  last (start_node t :: path t) = Some (end_node t) ∧
  (if finished t then path_idx t = length (path t)
   else (path_idx t < length (path t))%nat).

(** ** What the planner and the optimizer may change *)

(** [t'] is the task [t] up to its end node and its migration cost. *)
Definition reassigned (t t' : Task) : Prop := ∃ e c, t' = assign t e c.



(** The task once the first loop of the simulator has found that it need
    not move. *)
Definition settled (t : Task) : Task :=
  mkTask (tid t) (start_node t) (demand t) (end_node t) (migration_cost t)
         (path t) (path_idx t) (current_pos_node t) true.

(** The log entry [x] is of a time step no later than that of [y]. *)
Definition not_after (x y : LogEntry) : Prop := time x ≤ time y.

(** The tasks handed to the simulator in the sample run, as the optimizer
    leaves them when the time check fires at once. *)
Definition movers_demo : list Task :=
  [mkTask 1 1 2 2 2 [] 0 1 false; mkTask 2 4 1 3 3 [] 0 4 false].

(** ** The lines of the output *)

Definition task_line (t : Task) : list Z :=
  [tid t; start_node t; end_node t; migration_cost t].

Definition node_line (nds : Nodes) (i : Z) : list Z :=
  [nid (nds i); current_usage (nds i)].

Definition log_line (l : LogEntry) : list Z :=
  [time l; task_id l; from l; to l].



(** * Proofs *)

(** ** Facts about the tables *)

Lemma mset_eq m i j v : mset m i j v i j = v.
Proof. unfold mset. by rewrite !Z.eqb_refl. Qed.

Lemma mset_ne m i j v a b : (a, b) ≠ (i, j) → mset m i j v a b = m a b.
Proof.
  intros Hne. unfold mset.
  destruct (Z.eqb_spec a i), (Z.eqb_spec b j); simpl; congruence.
Qed.

Lemma mset_cases m i j v a b :
  mset m i j v a b = if bool_decide ((a, b) = (i, j)) then v else m a b.
Proof.
  case_bool_decide as H.
  - injection H as -> ->. apply mset_eq.
  - by apply mset_ne.
Qed.

Lemma if_bool_decide_ext {A : Type} (P Q : Prop) `{!Decision P, !Decision Q}
    (x y : A) :
  (P ↔ Q) →
  (if bool_decide P then x else y) = (if bool_decide Q then x else y).
Proof. intros HPQ. by rewrite (bool_decide_ext P Q HPQ). Qed.

Lemma nested_for_flat {S : Type} (N : Z) (body : Z → Z → S → S) (s : S) :
  for_range 1 N (λ i, for_range 1 N (λ j, body i j)) s
  = foldl (λ acc p, body p.1 p.2 acc) s (cells N).
Proof.
  unfold for_range, cells. replace (N - 1 + 1) with N by lia.
  generalize (seqZ 1 N) at 2 3. intros rows. revert s.
  induction rows as [|i rows IH]; intros s; [done|].
  simpl. rewrite foldl_app, <- IH. f_equal.
  change (map (λ y, (i, y)) (seqZ 1 N)) with ((λ y, (i, y)) <$> seqZ 1 N).
  by rewrite foldl_fmap.
Qed.

Lemma elem_of_cells N a b : (a, b) ∈ cells N ↔ (1 ≤ a ≤ N ∧ 1 ≤ b ≤ N).
Proof.
  unfold cells. rewrite list_elem_of_In, in_prod_iff, <- !list_elem_of_In.
  rewrite !elem_of_seqZ. lia.
Qed.

Lemma NoDup_cells N : NoDup (cells N).
Proof.
  unfold cells. generalize (NoDup_seqZ 1 N).
  generalize (seqZ 1 N) at 1 2. intros rows Hrows.
  induction Hrows as [|i rows Hi Hrows IH]; simpl; [constructor|].
  apply list.NoDup_app. split_and!; [|intros [a b]|done].
  - apply (NoDup_fmap_2 (λ y, (i, y))), NoDup_seqZ.
  - rewrite !list_elem_of_In, in_map_iff, in_prod_iff.
    intros (y & [= <- <-] & _) [Hin _]. by apply list_elem_of_In in Hin.
Qed.

(** ** One relaxation step *)

Lemma relax_improves k i j tb :
  improves tb k i j →
  relax k i j tb =
    {| adj_bandwidth := adj_bandwidth tb;
       dist := mset (dist tb) i j (dist tb i k + dist tb k j);
       next_hop := mset (next_hop tb) i j (next_hop tb i k) |}.
Proof.
  intros (H1 & H2 & H3). unfold relax.
  rewrite !bool_decide_eq_true_2 by done. simpl.
  by rewrite (proj2 (Z.ltb_lt _ _) H3).
Qed.

Lemma relax_not_improves k i j tb : ¬ improves tb k i j → relax k i j tb = tb.
Proof.
  intros Hn. unfold relax, improves in *.
  repeat case_bool_decide; simpl; try done.
  destruct (Z.ltb_spec (dist tb i k + dist tb k j) (dist tb i j)); [|done].
  exfalso. apply Hn. done.
Qed.

Lemma relax_adj k i j tb : adj_bandwidth (relax k i j tb) = adj_bandwidth tb.
Proof.
  destruct (decide (improves tb k i j)) as [H|H].
  - by rewrite relax_improves.
  - by rewrite relax_not_improves.
Qed.

(** A relaxation through [k] leaves row [k], column [k] and every other
    cell alone, as long as [dist[k][k]] is zero. *)
Lemma relax_keeps k i j tb a b :
  dist tb k k = 0 →
  a = k ∨ b = k ∨ (a, b) ≠ (i, j) →
  dist (relax k i j tb) a b = dist tb a b ∧
  next_hop (relax k i j tb) a b = next_hop tb a b.
Proof.
  intros Hkk Hcell.
  destruct (decide (improves tb k i j)) as [H|H];
    [|by rewrite relax_not_improves].
  rewrite relax_improves by done. simpl.
  assert ((a, b) ≠ (i, j)) as Hne.
  { intros [= -> ->]. destruct H as (_ & _ & H).
    destruct Hcell as [->|[->|Hc]]; [rewrite Hkk in H; lia..|done]. }
  by rewrite !mset_ne.
Qed.

Lemma relax_here k i j tb :
  dist (relax k i j tb) i j =
    (if bool_decide (improves tb k i j) then dist tb i k + dist tb k j
     else dist tb i j) ∧
  next_hop (relax k i j tb) i j =
    (if bool_decide (improves tb k i j) then next_hop tb i k
     else next_hop tb i j).
Proof.
  case_bool_decide as H.
  - rewrite relax_improves by done. simpl. by rewrite !mset_eq.
  - by rewrite relax_not_improves.
Qed.

(** ** One pivot: the in-place double loop computes the simultaneous update *)

Lemma pivot_cells k ps :
  NoDup ps → ∀ tb, dist tb k k = 0 →
  ∀ a b,
    dist (foldl (λ acc p, relax k p.1 p.2 acc) tb ps) a b =
      (if bool_decide ((a, b) ∈ ps ∧ improves tb k a b)
       then dist tb a k + dist tb k b else dist tb a b) ∧
    next_hop (foldl (λ acc p, relax k p.1 p.2 acc) tb ps) a b =
      (if bool_decide ((a, b) ∈ ps ∧ improves tb k a b)
       then next_hop tb a k else next_hop tb a b).
Proof.
  induction 1 as [|[i j] ps Hnotin Hnd IH]; intros tb Hkk a b.
  { rewrite bool_decide_eq_false_2; [done|]. intros [H _]. inversion H. }
  simpl foldl.
  set (tb1 := relax k i j tb).
  assert (∀ x y, x = k ∨ y = k ∨ (x, y) ≠ (i, j) →
            dist tb1 x y = dist tb x y ∧ next_hop tb1 x y = next_hop tb x y)
    as Hkeep by (intros; by apply relax_keeps).
  assert (dist tb1 k k = 0) as Hkk1.
  { rewrite (proj1 (Hkeep k k (or_introl eq_refl))). done. }
  specialize (IH tb1 Hkk1 a b).
  destruct (decide ((a, b) = (i, j))) as [[= -> ->]|Hne].
  - (* the cell relaxed first: never visited again *)
    rewrite !(bool_decide_eq_false_2 (_ ∈ ps ∧ _)) in IH by (by intros [? _]).
    destruct IH as [-> ->]. unfold tb1.
    destruct (relax_here k i j tb) as [-> ->].
    assert ((i, j) ∈ (i, j) :: ps) by left.
    split; apply if_bool_decide_ext; tauto.
  - destruct (Hkeep a k) as [Hak Hnak]; [auto|].
    destruct (Hkeep k b) as [Hkb _]; [auto|].
    destruct (Hkeep a b) as [Hab Hnab]; [auto|].
    assert (improves tb1 k a b ↔ improves tb k a b) as Himp.
    { unfold improves. by rewrite Hak, Hkb, Hab. }
    assert ((a, b) ∈ (i, j) :: ps ↔ (a, b) ∈ ps) as Hin.
    { rewrite elem_of_cons. tauto. }
    destruct IH as [-> ->]. rewrite Hak, Hkb, Hab, Hnak, Hnab.
    split; apply if_bool_decide_ext; tauto.
Qed.

Lemma pivot_spec N k tb a b :
  dist tb k k = 0 →
  dist (pivot N k tb) a b =
    (if bool_decide ((1 ≤ a ≤ N ∧ 1 ≤ b ≤ N) ∧ improves tb k a b)
     then dist tb a k + dist tb k b else dist tb a b) ∧
  next_hop (pivot N k tb) a b =
    (if bool_decide ((1 ≤ a ≤ N ∧ 1 ≤ b ≤ N) ∧ improves tb k a b)
     then next_hop tb a k else next_hop tb a b).
Proof.
  intros Hkk. unfold pivot. rewrite nested_for_flat.
  destruct (pivot_cells k (cells N) (NoDup_cells N) tb Hkk a b) as [-> ->].
  split; apply if_bool_decide_ext; rewrite elem_of_cells; tauto.
Qed.

Lemma pivot_adj N k tb : adj_bandwidth (pivot N k tb) = adj_bandwidth tb.
Proof.
  unfold pivot. rewrite nested_for_flat.
  generalize (cells N). intros ps. revert tb.
  induction ps as [|p ps IH]; intros tb; [done|].
  simpl. rewrite IH. apply relax_adj.
Qed.

Section FloydWarshall.
Variable N : Z.
Variable w : matrix.

Local Abbreviation node i := (1 ≤ i ≤ N).

Lemma pivot_node k tb a b :
  dist tb k k = 0 → node a → node b →
  (improves tb k a b ∧
     dist (pivot N k tb) a b = dist tb a k + dist tb k b ∧
     next_hop (pivot N k tb) a b = next_hop tb a k) ∨
  (¬ improves tb k a b ∧
     dist (pivot N k tb) a b = dist tb a b ∧
     next_hop (pivot N k tb) a b = next_hop tb a b).
Proof.
  intros Hkk Ha Hb. destruct (pivot_spec N k tb a b Hkk) as [-> ->].
  destruct (decide (improves tb k a b)) as [H|H].
  - left. by rewrite !bool_decide_eq_true_2.
  - right. by rewrite !bool_decide_eq_false_2 by tauto.
Qed.

Lemma pivot_min k tb h a b :
  fw_inv N w (k - 1) tb h → node k → node a → node b →
  dist (pivot N k tb) a b = Z.min (dist tb a b) (dist tb a k + dist tb k b).
Proof.
  intros Hinv Hk Ha Hb.
  pose proof (inv_diag _ _ _ _ _ Hinv k Hk) as Hkk.
  pose proof (inv_range _ _ _ _ _ Hinv a b Ha Hb).
  pose proof (inv_range _ _ _ _ _ Hinv a k Ha Hk).
  pose proof (inv_range _ _ _ _ _ Hinv k b Hk Hb).
  destruct (pivot_node k tb a b Hkk Ha Hb) as [(Hi & -> & _)|(Hi & -> & _)];
    unfold improves in Hi; lia.
Qed.

Lemma pivot_preserves k tb h :
  node k → fw_inv N w (k - 1) tb h →
  fw_inv N w k (pivot N k tb) (hops_after N k tb h).
Proof.
  intros Hk Hinv.
  pose proof (inv_diag _ _ _ _ _ Hinv k Hk) as Hkk.
  pose proof (inv_range _ _ _ _ _ Hinv) as Hr.
  pose proof (inv_tri _ _ _ _ _ Hinv) as Ht.
  pose proof (inv_le_w _ _ _ _ _ Hinv) as Hw.
  pose proof (pivot_min k tb h) as Hmin.
  split.
  - intros i j Hi Hj. rewrite (Hmin i j) by done.
    pose proof (Hr i j Hi Hj). pose proof (Hr i k Hi Hk).
    pose proof (Hr k j Hk Hj). lia.
  - intros i Hi. rewrite (Hmin i i) by done.
    pose proof (inv_diag _ _ _ _ _ Hinv i Hi).
    pose proof (Hr i k Hi Hk). pose proof (Hr k i Hk Hi). lia.
  - intros i j Hi Hj. rewrite (Hmin i j) by done.
    pose proof (Hw i j Hi Hj). lia.
  - intros i j m Hi Hj Hm HmK.
    rewrite (Hmin i j), (Hmin i m), (Hmin m j) by done.
    destruct (decide (m = k)) as [->|Hmk].
    + rewrite Hkk.
      pose proof (Hr i k Hi Hk). pose proof (Hr k j Hk Hj). lia.
    + assert (m ≤ k - 1) as Hm' by lia.
      pose proof (Ht i j m Hi Hj Hm Hm').
      pose proof (Ht i k m Hi Hk Hm Hm').
      pose proof (Ht k j m Hk Hj Hm Hm').
      pose proof (Hr k m Hk Hm). pose proof (Hr m k Hm Hk). lia.
  - intros i Hi. unfold hops_after.
    rewrite bool_decide_eq_false_2; [by eapply inv_h0|].
    intros [_ (_ & _ & Hlt)].
    rewrite (inv_diag _ _ _ _ _ Hinv i Hi) in Hlt.
    pose proof (Hr i k Hi Hk). pose proof (Hr k i Hk Hi). lia.
  - intros i j Hi Hj Hij Hfin.
    destruct (pivot_node k tb i j Hkk Hi Hj)
      as [(Himp & Hd & Hn)|(Himp & Hd & Hn)]; rewrite Hn; rewrite Hd in Hfin.
    + (* improved through k: the first hop is the one towards k *)
      assert (i ≠ k) as Hik.
      { intros ->. destruct Himp as (_ & _ & Hlt). rewrite Hkk in Hlt. lia. }
      pose proof (Hr i k Hi Hk) as Hrik. pose proof (Hr k j Hk Hj) as Hrkj.
      destruct Himp as (Hik1 & Hkj1 & Hlt).
      destruct (inv_hop _ _ _ _ _ Hinv i k Hi Hk Hik ltac:(lia))
        as (Hn1 & Hn2 & Hn3 & Hn4 & Hn5 & Hn6).
      set (n := next_hop tb i k) in *.
      pose proof (Hr i n Hi Hn1). pose proof (Hw i n Hi Hn1).
      pose proof (Hr n k Hn1 Hk). pose proof (Hr n j Hn1 Hj).
      assert (n = k ∨ improves tb k n j) as Hcase.
      { destruct (decide (n = k)) as [|Hnk]; [by left|right].
        pose proof (Ht i j n Hi Hj Hn1 ltac:(lia)).
        unfold improves. lia. }
      do 3 (split; [done|]). split; [lia|]. split.
      * rewrite (Hmin n j), Hd by done.
        destruct Hcase as [->|(_ & _ & ?)]; [rewrite Hkk|]; lia.
      * unfold hops_after.
        rewrite (bool_decide_eq_true_2 ((node i ∧ node j) ∧ _))
          by (unfold improves; tauto).
        destruct Hcase as [Hnk|Himp'].
        -- rewrite bool_decide_eq_false_2.
           { rewrite Hn6, Hnk, (inv_h0 _ _ _ _ _ Hinv k Hk). lia. }
           intros [_ (_ & _ & Hlt')]. rewrite Hnk, Hkk in Hlt'. lia.
        -- rewrite bool_decide_eq_true_2 by done. lia.
    + (* not improved: neither is the cell of the first hop *)
      destruct (inv_hop _ _ _ _ _ Hinv i j Hi Hj Hij Hfin)
        as (Hn1 & Hn2 & Hn3 & Hn4 & Hn5 & Hn6).
      set (n := next_hop tb i j) in *.
      pose proof (Hr i j Hi Hj). pose proof (Hr i k Hi Hk).
      pose proof (Hr k j Hk Hj).
      pose proof (Hr i n Hi Hn1). pose proof (Hw i n Hi Hn1).
      pose proof (Hr n k Hn1 Hk). pose proof (Hr n j Hn1 Hj).
      assert (¬ improves tb k n j) as Hnot.
      { intros (Ha & Hb & Hc). apply Himp. unfold improves.
        destruct Hn4 as [Hnj|HnK].
        - rewrite Hnj, (inv_diag _ _ _ _ _ Hinv j Hj) in Hc.
          pose proof (Hr j k Hj Hk). lia.
        - pose proof (Ht i k n Hi Hk Hn1 HnK). lia. }
      do 3 (split; [done|]). split; [lia|]. split.
      * rewrite (Hmin n j), Hd by done. unfold improves in Hnot. lia.
      * unfold hops_after.
        rewrite !bool_decide_eq_false_2 by tauto. done.
Qed.
End FloydWarshall.

(** ** What [init] and the link lines leave in the tables *)

Lemma init_spec N tb a b :
  (1 ≤ a ≤ N ∧ 1 ≤ b ≤ N →
     dist (init N tb) a b = (if a =? b then 0 else INF) ∧
     adj_bandwidth (init N tb) a b = 0 ∧
     next_hop (init N tb) a b = b) ∧
  (¬ (1 ≤ a ≤ N ∧ 1 ≤ b ≤ N) →
     dist (init N tb) a b = dist tb a b ∧
     adj_bandwidth (init N tb) a b = adj_bandwidth tb a b ∧
     next_hop (init N tb) a b = next_hop tb a b).
Proof.
  unfold init. rewrite nested_for_flat, <- elem_of_cells.
  generalize (cells N). intros ps.
  induction ps as [|[i j] ps IH] using rev_ind.
  { split; [intros H; inversion H|done]. }
  rewrite foldl_snoc, elem_of_app, list_elem_of_singleton. simpl.
  destruct (decide ((a, b) = (i, j))) as [[= -> ->]|Hne].
  - split; [intros _|tauto]. by rewrite !mset_eq.
  - rewrite !mset_ne by done. tauto.
Qed.

Lemma read_link_dist tb l a b :
  dist (read_link tb l) a b =
    if bool_decide (joins l a b ∧ lc l < dist tb (lu l) (lv l))
    then lc l else dist tb a b.
Proof.
  unfold read_link, joins. simpl.
  destruct (Z.ltb_spec (lc l) (dist tb (lu l) (lv l))) as [Hlt|Hge].
  - rewrite !mset_cases.
    repeat case_bool_decide; simplify_eq; try done; exfalso; intuition congruence.
  - rewrite bool_decide_eq_false_2; [done|lia].
Qed.

Lemma read_link_adj tb l a b :
  adj_bandwidth (read_link tb l) a b =
    if bool_decide (joins l a b) then lb l else adj_bandwidth tb a b.
Proof.
  unfold read_link, joins. simpl. rewrite !mset_cases.
  repeat case_bool_decide; simplify_eq; try done; exfalso; intuition congruence.
Qed.

Lemma read_links_next_hop links tb :
  next_hop (read_links links tb) = next_hop tb.
Proof.
  unfold read_links. induction links as [|l links IH] using rev_ind; [done|].
  by rewrite foldl_snoc.
Qed.


(** The cost kept for a pair is the same in both directions, is never above
    its starting value, and when it is below, it is the cost of some declared
    link between the two nodes. *)
Lemma read_links_dist links tb :
  (∀ a b, dist tb a b = dist tb b a) →
  ∀ a b,
    dist (read_links links tb) a b = dist (read_links links tb) b a ∧
    dist (read_links links tb) a b ≤ dist tb a b ∧
    (dist (read_links links tb) a b = dist tb a b ∨
     ∃ l, l ∈ links ∧ joins l a b ∧ lc l = dist (read_links links tb) a b).
Proof.
  intros Hsym. unfold read_links.
  induction links as [|l links IH] using rev_ind.
  { intros a b. simpl. split; [apply Hsym|]. split; [lia|by left]. }
  intros a b. rewrite foldl_snoc, !read_link_dist.
  set (tb1 := foldl read_link tb links) in *.
  destruct (IH a b) as (IHs & IHle & IHl).
  assert (joins l b a ↔ joins l a b) as Hjs by (unfold joins; tauto).
  rewrite (if_bool_decide_ext (joins l b a ∧ lc l < dist tb1 (lu l) (lv l))
             (joins l a b ∧ lc l < dist tb1 (lu l) (lv l))) by tauto.
  case_bool_decide as Hc.
  - destruct Hc as [Hjoin Hlt]. split; [done|]. split.
    + destruct Hjoin as [[<- <-]|[<- <-]]; [lia|].
      destruct (IH (lu l) (lv l)) as (Hs' & _). lia.
    + right. exists l. rewrite elem_of_app, list_elem_of_singleton. auto.
  - split; [done|]. split; [done|].
    destruct IHl as [?|(l' & ? & ? & ?)]; [by left|right].
    exists l'. rewrite elem_of_app. auto.
Qed.

Lemma read_links_nonneg links tb a b :
  (∀ l, l ∈ links → 0 ≤ lc l) →
  0 ≤ dist tb a b → 0 ≤ dist (read_links links tb) a b.
Proof.
  intros Hpos H0. unfold read_links.
  induction links as [|l links IH] using rev_ind; [done|].
  rewrite foldl_snoc, read_link_dist.
  case_bool_decide.
  - apply Hpos. rewrite elem_of_app, list_elem_of_singleton. auto.
  - apply IH. intros l' Hl'. apply Hpos. rewrite elem_of_app. auto.
Qed.

Lemma init_dist_sym N a b : dist (init N globals0) a b = dist (init N globals0) b a.
Proof.
  destruct (decide (1 ≤ a ≤ N ∧ 1 ≤ b ≤ N)) as [Hin|Hout].
  - destruct (proj1 (init_spec N globals0 a b) Hin) as (-> & _).
    destruct (proj1 (init_spec N globals0 b a)) as (-> & _); [tauto|].
    by rewrite (Z.eqb_sym a b).
  - destruct (proj2 (init_spec N globals0 a b) Hout) as (-> & _).
    destruct (proj2 (init_spec N globals0 b a)) as (-> & _); [tauto|done].
Qed.

Lemma readInput_next_hop N links i j :
  1 ≤ i ≤ N → 1 ≤ j ≤ N → next_hop (readInput_tables N links) i j = j.
Proof.
  intros Hi Hj. unfold readInput_tables. rewrite read_links_next_hop.
  by destruct (proj1 (init_spec N globals0 i j)) as (_ & _ & ->).
Qed.

Lemma readInput_dist_le_INF N links i j :
  dist (readInput_tables N links) i j ≤ INF.
Proof.
  unfold readInput_tables.
  destruct (read_links_dist links _ (init_dist_sym N) i j) as (_ & Hle & _).
  etrans; [exact Hle|].
  destruct (decide (1 ≤ i ≤ N ∧ 1 ≤ j ≤ N)) as [Hin|Hout].
  - destruct (proj1 (init_spec N globals0 i j) Hin) as (-> & _).
    by destruct (i =? j).
  - by destruct (proj2 (init_spec N globals0 i j) Hout) as (-> & _).
Qed.

Lemma readInput_dist_diag_le N links i : dist (readInput_tables N links) i i ≤ 0.
Proof.
  unfold readInput_tables.
  destruct (read_links_dist links _ (init_dist_sym N) i i) as (_ & Hle & _).
  etrans; [exact Hle|].
  destruct (decide (1 ≤ i ≤ N ∧ 1 ≤ i ≤ N)) as [Hin|Hout].
  - destruct (proj1 (init_spec N globals0 i i) Hin) as (-> & _).
    by rewrite Z.eqb_refl.
  - by destruct (proj2 (init_spec N globals0 i i) Hout) as (-> & _).
Qed.

Lemma readInput_dist_nonneg N links i j :
  (∀ l, l ∈ links → 0 ≤ lc l) → 0 ≤ dist (readInput_tables N links) i j.
Proof.
  intros Hpos. apply read_links_nonneg; [done|].
  destruct (decide (1 ≤ i ≤ N ∧ 1 ≤ j ≤ N)) as [Hin|Hout].
  - destruct (proj1 (init_spec N globals0 i j) Hin) as (-> & _).
    by destruct (i =? j).
  - by destruct (proj2 (init_spec N globals0 i j) Hout) as (-> & _).
Qed.

(** A finite cost between two distinct nodes comes from a declared link. *)
Lemma readInput_dist_link N links i j :
  1 ≤ i ≤ N → 1 ≤ j ≤ N → i ≠ j →
  dist (readInput_tables N links) i j < INF →
  ∃ l, l ∈ links ∧ joins l i j ∧ lc l = dist (readInput_tables N links) i j.
Proof.
  intros Hi Hj Hij Hfin. unfold readInput_tables in *.
  destruct (read_links_dist links _ (init_dist_sym N) i j) as (_ & _ & [Heq|Hl]);
    [|done].
  rewrite Heq in Hfin.
  destruct (proj1 (init_spec N globals0 i j)) as (Hd & _); [done|].
  rewrite Hd in Hfin. destruct (Z.eqb_spec i j); [done|lia].
Qed.

Lemma fw_inv_readInput N links :
  (∀ l, l ∈ links → 0 ≤ lc l) →
  fw_inv N (dist (readInput_tables N links)) 0 (readInput_tables N links) hops0.
Proof.
  intros Hpos.
  assert (∀ i, dist (readInput_tables N links) i i = 0) as Hdiag.
  { intros i. pose proof (readInput_dist_diag_le N links i).
    pose proof (readInput_dist_nonneg N links i i Hpos). lia. }
  split.
  - intros i j _ _. split; [by apply readInput_dist_nonneg|].
    apply readInput_dist_le_INF.
  - intros i _. apply Hdiag.
  - intros; lia.
  - intros; lia.
  - intros i _. unfold hops0. by rewrite bool_decide_eq_true_2.
  - intros i j Hi Hj Hij Hfin. rewrite readInput_next_hop by done.
    rewrite Hdiag. unfold hops0.
    rewrite (bool_decide_eq_true_2 (j = j)), (bool_decide_eq_false_2 (i = j))
      by done.
    split_and!; try done; try lia; by left.
Qed.

Lemma floydWarshall_inv N w tb h0 :
  fw_inv N w 0 tb h0 → ∃ h, fw_inv N w N (floydWarshall N tb) h.
Proof.
  intros H0. unfold floydWarshall, for_range.
  replace (N - 1 + 1) with N by lia.
  destruct (decide (N ≤ 0)) as [Hneg|Hpos].
  { rewrite seqZ_nil by done. exists h0.
    destruct H0. split; intros; try done; lia. }
  assert (∀ n : nat, Z.of_nat n ≤ N →
            ∃ h, fw_inv N w (Z.of_nat n)
                   (foldl (λ acc k, pivot N k acc) tb (seqZ 1 (Z.of_nat n))) h)
    as Hloop.
  { induction n as [|n IH]; intros Hn; [by exists h0|].
    destruct IH as [h Hh]; [lia|].
    rewrite seqZ_S, foldl_snoc.
    exists (hops_after N (1 + Z.of_nat n)
              (foldl (λ acc k, pivot N k acc) tb (seqZ 1 (Z.of_nat n))) h).
    replace (Z.of_nat (S n)) with (1 + Z.of_nat n) by lia.
    apply pivot_preserves; [lia|].
    by replace (1 + Z.of_nat n - 1) with (Z.of_nat n) by lia. }
  destruct (Hloop (Z.to_nat N)) as [h Hh]; [lia|].
  rewrite Z2Nat.id in Hh by lia. by exists h.
Qed.

(** ** Following the routing table *)

Lemma follow_walk N links w tb h :
  fw_inv N w N tb h →
  (∀ i n, 1 ≤ i ≤ N → 1 ≤ n ≤ N → i ≠ n → w i n < INF →
     ∃ l, l ∈ links ∧ joins l i n ∧ lc l = w i n) →
  ∀ fuel i j acc,
    1 ≤ i ≤ N → 1 ≤ j ≤ N → dist tb i j < INF → h i j = fuel →
    ∃ p, follow fuel (next_hop tb) i j acc = Some (acc ++ p) ∧
         walk links i p (dist tb i j) j.
Proof.
  intros Hinv Hlinks.
  induction fuel as [|fuel IH]; intros i j acc Hi Hj Hfin Hh.
  - destruct (decide (i = j)) as [->|Hij].
    + exists []. simpl. rewrite Z.eqb_refl, app_nil_r.
      rewrite (inv_diag _ _ _ _ _ Hinv j Hj). split; [done|constructor].
    + destruct (inv_hop _ _ _ _ _ Hinv i j Hi Hj Hij Hfin) as (_ & _ & _ & _ & _ & ?).
      congruence.
  - destruct (decide (i = j)) as [->|Hij].
    + exists []. simpl. rewrite Z.eqb_refl, app_nil_r.
      rewrite (inv_diag _ _ _ _ _ Hinv j Hj). split; [done|constructor].
    + destruct (inv_hop _ _ _ _ _ Hinv i j Hi Hj Hij Hfin)
        as (Hn1 & Hn2 & Hn3 & _ & Hn5 & Hn6).
      set (n := next_hop tb i j) in *.
      pose proof (inv_range _ _ _ _ _ Hinv i n Hi Hn1).
      pose proof (inv_le_w _ _ _ _ _ Hinv i n Hi Hn1).
      destruct (IH n j (acc ++ [n]) Hn1 Hj ltac:(lia) ltac:(lia))
        as (p & Hp & Hwalk).
      destruct (Hlinks i n Hi Hn1 ltac:(done) Hn3) as (l & Hl & Hjoin & Hcost).
      exists (n :: p). split.
      * simpl. destruct (Z.eqb_spec i j); [done|].
        fold n. rewrite Hp. by rewrite <- app_assoc.
      * rewrite Hn5, <- Hcost. by econstructor.
Qed.

(** The invariant, and with it the walk along the routing table, on the
    tables built from an input without negative costs. *)
Lemma pipeline_inv N links :
  Forall (λ l, 0 ≤ lc l) links →
  ∃ h, fw_inv N (dist (readInput_tables N links)) N
         (floydWarshall N (readInput_tables N links)) h.
Proof.
  intros Hpos. rewrite list.Forall_forall in Hpos.
  apply (floydWarshall_inv N _ _ _ (fw_inv_readInput N links Hpos)).
Qed.

Lemma pipeline_follow N links i j :
  Forall (λ l, 0 ≤ lc l) links →
  1 ≤ i ≤ N → 1 ≤ j ≤ N →
  let tb := floydWarshall N (readInput_tables N links) in
  dist tb i j < INF →
  ∃ fuel p, follow fuel (next_hop tb) i j [] = Some p ∧
            walk links i p (dist tb i j) j.
Proof.
  intros Hpos Hi Hj tb Hfin.
  destruct (pipeline_inv N links Hpos) as [h Hinv]. fold tb in Hinv.
  destruct (follow_walk N links _ tb h Hinv
              (readInput_dist_link N links) (h i j) i j [] Hi Hj Hfin eq_refl)
    as (p & Hp & Hwalk).
  by exists (h i j), p.
Qed.

(** * Shortest-path table: the main results *)

(** C2 (as amended): when no link cost is negative, after [floydWarshall]
    every node pair [i], [j] in [1..N] has [dist[i][i] = 0], the triangle
    inequality holds through every node [k], and for a reachable pair
    following [next_hop] from [i] stops at [j] after finitely many steps,
    crosses only links declared in the input, and the costs of the crossed
    links add up to [dist[i][j]]. *)
Theorem floydWarshall_correct (N : Z) (links : list Link) (i j : Z) :
  Forall (λ l, 0 ≤ lc l) links →
  1 ≤ i ≤ N → 1 ≤ j ≤ N →
  let tb := floydWarshall N (readInput_tables N links) in
  dist tb i i = 0 ∧
  (∀ k, 1 ≤ k ≤ N → dist tb i j ≤ dist tb i k + dist tb k j) ∧
  (dist tb i j < INF →
     ∃ fuel p, follow fuel (next_hop tb) i j [] = Some p ∧
               walk links i p (dist tb i j) j).
Proof.
  intros Hpos Hi Hj tb.
  destruct (pipeline_inv N links Hpos) as [h Hinv]. fold tb in Hinv.
  split; [by eapply inv_diag|]. split.
  - intros k Hk. eapply inv_tri; [done..|lia].
  - by apply pipeline_follow.
Qed.

Lemma floydWarshall_correct_witness :
  let tb := floydWarshall 3 (readInput_tables 3 links_demo) in
  dist tb 1 1 = 0 ∧
  (∀ k, 1 ≤ k ≤ 3 → dist tb 1 3 ≤ dist tb 1 k + dist tb k 3) ∧
  (dist tb 1 3 < INF →
     ∃ fuel p, follow fuel (next_hop tb) 1 3 [] = Some p ∧
               walk links_demo 1 p (dist tb 1 3) 3).
Proof.
  apply (floydWarshall_correct 3 links_demo 1 3).
  - unfold links_demo. repeat constructor; simpl; lia.
  - lia.
  - lia.
Defined.

Example floydWarshall_demo :
  let tb := floydWarshall 3 (readInput_tables 3 links_demo) in
  dist tb 1 3 = 4 ∧ next_hop tb 1 3 = 2 ∧
  follow 2 (next_hop tb) 1 3 [] = Some [2; 3].
Proof. vm_compute. by repeat split. Qed.

(** C2 fails as stated on a link of negative cost: crossing the link and
    coming back makes the distance of a node to itself negative (pivot 1
    sets [dist[2][2]] to -2, pivot 2 lowers all four cells again). *)
Lemma floydWarshall_negative_cost :
  let tb := floydWarshall 2 (readInput_tables 2 [mkLink 1 2 (-1) 1]) in
  dist tb 1 1 = -2 ∧ dist tb 1 2 = -3 ∧ dist tb 2 1 = -3 ∧ dist tb 2 2 = -4 ∧
  dist tb 2 2 ≠ 0.
Proof. vm_compute. repeat split; discriminate. Qed.

(** * The greedy planner *)

Lemma scan_target_ok (n : Z) dist nds t best :
  0 ≤ n → scan_ok n dist nds t best →
  scan_ok (1 + n) dist nds t (scan_target dist nds t (1 + n) best).
Proof.
  intros Hn Hok. unfold scan_target.
  destruct (Z.eqb_spec (dist (start_node t) (1 + n)) INF) as [Hinf|Hreach].
  { (* unreachable: skipped *)
    destruct Hok as [[Hb Hnone]|[(Hb & Hf & Hmin) Hc]]; [left|right].
    - split; [done|]. intros x Hx [Hx1 Hx2].
      destruct (decide (x = 1 + n)) as [->|]; [done|]. apply (Hnone x); [lia|done].
    - split; [|done]. split; [lia|]. split; [done|]. intros x Hx [Hx1 Hx2].
      destruct (decide (x = 1 + n)) as [->|]; [done|]. apply Hmin; [lia|done]. }
  destruct (Z.leb_spec (current_usage (nds (1 + n)) + demand t)
              (capacity (nds (1 + n)))) as [Hfit|Hfull].
  2:{ (* no room: skipped *)
    destruct Hok as [[Hb Hnone]|[(Hb & Hf & Hmin) Hc]]; [left|right].
    - split; [done|]. intros x Hx [Hx1 Hx2].
      destruct (decide (x = 1 + n)) as [->|]; [lia|]. apply (Hnone x); [lia|done].
    - split; [|done]. split; [lia|]. split; [done|]. intros x Hx [Hx1 Hx2].
      destruct (decide (x = 1 + n)) as [->|]; [lia|]. apply Hmin; [lia|done]. }
  assert (feasible dist nds t (1 + n)) as Hnew by done.
  fold (cost_to dist t (1 + n)).
  destruct (Z.eqb_spec best.1 (-1)) as [Hnone|Hsome]; simpl.
  { (* first feasible node *)
    right. unfold greedy_choice. simpl. split; [|done]. split; [lia|].
    split; [done|].
    intros x Hx Hfx. destruct (decide (x = 1 + n)) as [->|]; [lia|].
    destruct Hok as [[_ Hno]|[(Hb & _) _]]; [|lia].
    exfalso. apply (Hno x); [lia|done]. }
  destruct Hok as [[Hb _]|[(Hb & Hf & Hmin) Hc]]; [done|].
  destruct (Z.ltb_spec (cost_to dist t (1 + n)) best.2) as [Hlt|Hge].
  - (* strictly cheaper: replaces the best so far *)
    right. unfold greedy_choice. simpl. split; [|done]. split; [lia|].
    split; [done|].
    intros x Hx Hfx. destruct (decide (x = 1 + n)) as [->|]; [lia|].
    destruct (Hmin x ltac:(lia) Hfx). lia.
  - (* not cheaper: the earlier node stays, also on a tie *)
    right. split; [|done]. split; [lia|]. split; [done|].
    intros x Hx Hfx. destruct (decide (x = 1 + n)) as [->|]; [lia|].
    apply Hmin; [lia|done].
Qed.

Lemma best_target_ok N dist nds t :
  scan_ok N dist nds t (best_target N dist nds t).
Proof.
  unfold best_target, for_range. replace (N - 1 + 1) with N by lia.
  destruct (decide (N ≤ 0)) as [Hneg|Hpos].
  { rewrite seqZ_nil by done. left. split; [done|]. intros; lia. }
  assert (∀ n : nat,
            scan_ok (Z.of_nat n) dist nds t
              (foldl (λ acc i, scan_target dist nds t i acc) (-1, -1)
                     (seqZ 1 (Z.of_nat n)))) as Hloop.
  { induction n as [|n IH].
    - left. split; [done|]. intros; lia.
    - rewrite seqZ_S, foldl_snoc.
      replace (Z.of_nat (S n)) with (1 + Z.of_nat n) by lia.
      apply scan_target_ok; [lia|done]. }
  specialize (Hloop (Z.to_nat N)). by rewrite Z2Nat.id in Hloop by lia.
Qed.

(** The two outcomes of one turn of the planner's loop. *)
Lemma place_task_cases N dist st idx t :
  tasks st !! idx = Some t →
  (∃ b, greedy_choice N dist (nodes st) t b ∧
        place_task N dist st idx =
          {| tasks := <[idx := assign t b (cost_to dist t b)]> (tasks st);
             nodes := add_usage (nodes st) b (demand t) |}) ∨
  ((∀ target, 1 ≤ target ≤ N → ¬ feasible dist (nodes st) t target) ∧
   place_task N dist st idx = st).
Proof.
  intros Ht. unfold place_task. rewrite Ht.
  destruct (best_target_ok N dist (nodes st) t) as [[Hb Hnone]|[Hch Hc]].
  - right. by rewrite Hb.
  - left. exists (best_target N dist (nodes st) t).1. split; [done|].
    destruct Hch as (Hb & _).
    destruct (Z.eqb_spec (best_target N dist (nodes st) t).1 (-1)); [lia|].
    by rewrite Hc.
Qed.

Lemma place_task_length N dist st idx :
  length (tasks (place_task N dist st idx)) = length (tasks st).
Proof.
  unfold place_task. destruct (tasks st !! idx); [|done].
  destruct (_ =? _); [done|]. simpl. by rewrite length_insert.
Qed.



Lemma read_tasks_fresh lines idx t :
  read_tasks lines !! idx = Some t →
  end_node t = start_node t ∧ migration_cost t = 0.
Proof.
  unfold read_tasks. rewrite list_lookup_fmap.
  destruct (lines !! idx) as [[[id s] d]|]; [|done].
  by intros [= <-].
Qed.

#[local] Instance by_demand_desc_total ts : Total (by_demand_desc ts).
Proof. intros a b. unfold by_demand_desc. lia. Qed.

#[local] Instance by_demand_desc_trans ts : Transitive (by_demand_desc ts).
Proof. intros a b c. unfold by_demand_desc. lia. Qed.

(** The order used to run the model is one that [std::sort] may return. *)
Lemma sort_by_demand_sorted ts : sorted_indices ts (sort_by_demand ts).
Proof.
  split.
  - apply merge_sort_Permutation.
  - apply StronglySorted_merge_sort; apply _.
Qed.



Example solveAllocationGreedy_demo :
  let dist := dist_demo in
  let final := solveAllocationGreedy 4 dist
                 (mkState (read_tasks lines_demo) nodes_demo) in
  (end_node <$> tasks final) = [2; 3] ∧
  (migration_cost <$> tasks final) = [2; 3] ∧
  ((λ i, current_usage (nodes final i)) <$> [1; 2; 3; 4]) = [0; 2; 1; 0].
Proof. vm_compute. by repeat split. Qed.

(** * The optimizer *)

(** ** Sums *)

Lemma Zsum_app l k : Zsum (l ++ k) = Zsum l + Zsum k.
Proof. induction l as [|x l IH]; simpl; lia. Qed.

Lemma Zsum_insert l i x y :
  l !! i = Some x → Zsum (<[i:=y]> l) = Zsum l - x + y.
Proof.
  revert i. induction l as [|z l IH]; intros [|i] Hi; simplify_eq/=; [lia|].
  rewrite (IH i Hi). lia.
Qed.

Lemma foldl_add_Zsum {A : Type} (f : A → Z) (l : list A) (z : Z) :
  foldl (λ total x, total + f x) z l = z + Zsum (f <$> l).
Proof.
  revert z. induction l as [|x l IH]; intros z; csimpl; [lia|].
  rewrite IH. lia.
Qed.

Lemma calculateTotalCost_Zsum dist ts :
  calculateTotalCost dist ts = Zsum (task_cost dist <$> ts).
Proof. unfold calculateTotalCost. by rewrite (foldl_add_Zsum (task_cost dist)). Qed.

Lemma assignment_cost_own dist ts :
  assignment_cost dist ts (end_node <$> ts) = calculateTotalCost dist ts.
Proof.
  unfold assignment_cost. rewrite calculateTotalCost_Zsum.
  by rewrite zip_with_fmap_r, zip_with_diag.
Qed.


(** Both depend on the tasks only through what the input fixed. *)
Lemma assignment_cost_shape dist ts ts' best :
  shape <$> ts = shape <$> ts' →
  assignment_cost dist ts best = assignment_cost dist ts' best.
Proof.
  intros Hs. unfold assignment_cost.
  rewrite <- (zip_with_fmap_l (λ p e, dist p.1.2 e * p.2) shape ts).
  rewrite <- (zip_with_fmap_l (λ p e, dist p.1.2 e * p.2) shape ts').
  by rewrite Hs.
Qed.


Lemma shape_insert (ts : list Task) (i : nat) t t' :
  ts !! i = Some t → shape t' = shape t →
  shape <$> <[i:=t']> ts = shape <$> ts.
Proof.
  intros Hi Hs. rewrite list_fmap_insert, Hs.
  apply list_insert_id. by rewrite list_lookup_fmap, Hi.
Qed.

(** ** The loop and its passes *)

Section Annealing.
Context `{DoubleArith}.
Variable N : Z.
Variable dist : matrix.
Variable rnd : nat → Z.

Lemma sa_run_S k s :
  sa_run N dist rnd (S k) s = sa_body N dist rnd (sa_run N dist rnd k s).
Proof. done. Qed.

Lemma sa_run_shift k s :
  sa_run N dist rnd (S k) s = sa_run N dist rnd k (sa_body N dist rnd s).
Proof. unfold sa_run. by rewrite Nat.iter_succ_r. Qed.



(** Whatever the loop returns is the state after some number of passes. *)
Lemma sa_loop_run fuel deadline s s' :
  sa_loop fuel N dist rnd deadline s = Some s' →
  ∃ k, s' = sa_run N dist rnd k s.
Proof.
  revert s. induction fuel as [|fuel IH]; intros s; simpl; [done|].
  destruct (_ && _).
  - intros [= <-]. by exists O.
  - intros Hs'. destruct (IH _ Hs') as [k ->].
    exists (S k). by rewrite sa_run_shift.
Qed.




(** The shapes a pass can take. *)
Lemma sa_body_cases s :
  (∃ temp calls, sa_body N dist rnd s = sa_skip s temp calls) ∨
  (∃ t_idx t new_node calls,
     sa_tasks s !! t_idx = Some t ∧
     new_node ≠ end_node t ∧
     dist (start_node t) new_node ≠ INF ∧
     current_usage (sa_nodes s new_node) + demand t
       ≤ capacity (sa_nodes s new_node) ∧
     sa_body N dist rnd s =
       sa_accept dist s t_idx t new_node
         (dist (start_node t) new_node * demand t
          - dist (start_node t) (end_node t) * demand t) calls).
Proof.
  unfold sa_body.
  set (t_idx := Z.to_nat _). set (new_node := Z.rem _ _ + 1).
  destruct (sa_tasks s !! t_idx) as [t|] eqn:Ht; [|left; eauto].
  destruct (Z.eqb_spec new_node (end_node t)) as [|Hne]; [left; eauto|].
  destruct (Z.eqb_spec (dist (start_node t) new_node) INF) as [|Hreach];
    [left; eauto|]. simpl.
  destruct (Z.leb_spec (current_usage (sa_nodes s new_node) + demand t)
              (capacity (sa_nodes s new_node))) as [Hfit|]; [|left; eauto].
  destruct (_ <? 0); [right; by eauto 10|].
  destruct (metropolis _ _ _); [right; by eauto 10|left; eauto].
Qed.

End Annealing.

(** ** Node usage *)

Lemma add_usage_usage nds i d n :
  current_usage (add_usage nds i d n) =
    current_usage (nds n) + (if n =? i then d else 0).
Proof.
  unfold add_usage, set_usage, set_node.
  destruct (Z.eqb_spec n i) as [->|]; simpl; lia.
Qed.

Lemma add_usage_capacity nds i d n :
  capacity (add_usage nds i d n) = capacity (nds n).
Proof.
  unfold add_usage, set_usage, set_node.
  by destruct (Z.eqb_spec n i) as [->|].
Qed.

Lemma for_range_inv {S : Type} (P : S → Prop) lo hi (body : Z → S → S) s :
  (∀ i s', lo ≤ i ≤ hi → P s' → P (body i s')) → P s →
  P (for_range lo hi body s).
Proof.
  intros Hstep. unfold for_range.
  assert (∀ l, Forall (λ i, lo ≤ i ≤ hi) l → ∀ s', P s' →
            P (foldl (λ acc i, body i acc) s' l)) as Hl.
  { induction l as [|i l IH]; intros Hall s' Hs'; [done|].
    apply Forall_cons in Hall as [Hi Hall]. simpl. apply IH; auto. }
  apply Hl. apply Forall_seqZ. lia.
Qed.

Lemma reset_usage_spec N nds n :
  current_usage (reset_usage N nds n) =
    (if bool_decide (1 ≤ n ≤ N) then 0 else current_usage (nds n)) ∧
  capacity (reset_usage N nds n) = capacity (nds n).
Proof.
  unfold reset_usage, for_range. replace (N - 1 + 1) with N by lia.
  rewrite (if_bool_decide_ext (1 ≤ n ≤ N) (n ∈ seqZ 1 N))
    by (rewrite elem_of_seqZ; lia).
  generalize (seqZ 1 N). intros l.
  induction l as [|i l IH] using rev_ind.
  { rewrite bool_decide_eq_false_2; [done|]. intros Hin. inversion Hin. }
  rewrite foldl_snoc. unfold set_usage at 1 3, set_node.
  destruct IH as [IHu IHc].
  destruct (Z.eqb_spec n i) as [->|Hne]; simpl.
  - rewrite bool_decide_eq_true_2; [done|]. rewrite elem_of_app. right. left.
  - rewrite IHu, IHc. split; [|done]. apply if_bool_decide_ext.
    rewrite elem_of_app, list_elem_of_singleton. tauto.
Qed.

(** ** The write-back *)

Lemma restore_fold dist best0 rest brest done bdone nds :
  length done = length bdone → length rest = length brest →
  best0 = bdone ++ brest →
  let st' := foldl (restore_task dist best0)
               {| tasks := done ++ rest; nodes := nds |}
               (seq (length done) (length rest)) in
  tasks st' = done ++ zip_with (restored dist) rest brest ∧
  ∀ n, current_usage (nodes st' n) =
         current_usage (nds n)
         + Zsum (zip_with (λ t e, if e =? n then demand t else 0) rest brest) ∧
       capacity (nodes st' n) = capacity (nds n).
Proof.
  revert brest done bdone nds.
  induction rest as [|t rest IH]; intros [|e brest] done bdone nds Hd Hr ->;
    simplify_eq/=.
  { split; [done|]. intros n. split; [lia|done]. }
  assert (restore_task dist (bdone ++ e :: brest)
            {| tasks := done ++ t :: rest; nodes := nds |} (length done)
          = {| tasks := (done ++ [restored dist t e]) ++ rest;
               nodes := add_usage nds e (demand t) |}) as ->.
  { unfold restore_task. simpl.
    rewrite (lookup_app_r done), (lookup_app_r bdone) by lia.
    rewrite <- Hd, !Nat.sub_diag. simpl. f_equal.
    rewrite <- app_assoc. simpl. rewrite (insert_app_r_alt done) by lia.
    by rewrite Nat.sub_diag. }
  replace (S (length done)) with (length (done ++ [restored dist t e]))
    by (rewrite length_app; simpl; lia).
  destruct (IH brest (done ++ [restored dist t e]) (bdone ++ [e])
              (add_usage nds e (demand t))) as [Ht Hn].
  { rewrite !length_app. simpl. lia. }
  { done. }
  { by rewrite <- app_assoc. }
  split.
  - rewrite Ht, <- app_assoc. done.
  - intros n. destruct (Hn n) as [-> ->].
    rewrite add_usage_usage, add_usage_capacity.
    split; [|done]. rewrite (Z.eqb_sym n e). lia.
Qed.

Lemma restore_best_spec `{DoubleArith} N dist s :
  length (best_assignment s) = length (sa_tasks s) →
  tasks (restore_best N dist s) =
    zip_with (restored dist) (sa_tasks s) (best_assignment s) ∧
  ∀ n, current_usage (nodes (restore_best N dist s) n) =
         (if bool_decide (1 ≤ n ≤ N) then 0 else current_usage (sa_nodes s n))
         + assignment_load (sa_tasks s) (best_assignment s) n ∧
       capacity (nodes (restore_best N dist s) n) = capacity (sa_nodes s n).
Proof.
  intros Hlen. unfold restore_best.
  destruct (restore_fold dist (best_assignment s) (sa_tasks s)
              (best_assignment s) [] [] (reset_usage N (sa_nodes s)))
    as [Ht Hn]; [done..|].
  simpl in Ht, Hn. split; [done|].
  intros n. destruct (Hn n) as [-> ->].
  by destruct (reset_usage_spec N (sa_nodes s) n) as [-> ->].
Qed.

(** ** Cost bookkeeping *)

Section AnnealingCost.
Context `{DoubleArith}.
Variable N : Z.
Variable dist : matrix.
Variable rnd : nat → Z.
Variable st : State.

Lemma sa_inv_start : sa_inv dist st (sa_start dist st).
Proof.
  split; simpl; try done.
  - by rewrite length_fmap.
  - by rewrite assignment_cost_own.
Qed.

Lemma sa_inv_skip s temp calls :
  sa_inv dist st s → sa_inv dist st (sa_skip s temp calls).
Proof. intros []. by split. Qed.

Lemma calculateTotalCost_insert (ts : list Task) (i : nat) t t' :
  ts !! i = Some t →
  calculateTotalCost dist (<[i:=t']> ts) =
    calculateTotalCost dist ts - task_cost dist t + task_cost dist t'.
Proof.
  intros Hi. rewrite !calculateTotalCost_Zsum, list_fmap_insert.
  apply Zsum_insert. by rewrite list_lookup_fmap, Hi.
Qed.

Lemma sa_inv_accept s t_idx t new_node calls :
  sa_tasks s !! t_idx = Some t →
  sa_inv dist st s →
  sa_inv dist st
    (sa_accept dist s t_idx t new_node
       (dist (start_node t) new_node * demand t
        - dist (start_node t) (end_node t) * demand t) calls).
Proof.
  intros Ht [Hshape Hlen Hcost Hbest Hle Hcaps].
  set (t' := assign t new_node (dist (start_node t) new_node * demand t)).
  assert (shape <$> <[t_idx:=t']> (sa_tasks s) = shape <$> tasks st) as Hshape'.
  { by rewrite (shape_insert _ _ t). }
  assert (current_cost s
          + (dist (start_node t) new_node * demand t
             - dist (start_node t) (end_node t) * demand t)
          = calculateTotalCost dist (<[t_idx:=t']> (sa_tasks s))) as Hcost'.
  { rewrite (calculateTotalCost_insert _ _ t) by done.
    rewrite Hcost. unfold task_cost. simpl. lia. }
  split; simpl; fold t'; try done.
  - destruct (_ <? _); [|done].
    rewrite length_fmap, length_insert.
    by rewrite <- (length_fmap shape), Hshape, length_fmap.
  - destruct (Z.ltb_spec
                (current_cost s
                 + (dist (start_node t) new_node * demand t
                    - dist (start_node t) (end_node t) * demand t))
                (best_cost s)); [|done].
    rewrite Hcost', <- assignment_cost_own.
    by apply assignment_cost_shape.
  - destruct (Z.ltb_spec
                (current_cost s
                 + (dist (start_node t) new_node * demand t
                    - dist (start_node t) (end_node t) * demand t))
                (best_cost s)); lia.
  - intros n. by rewrite !add_usage_capacity.
Qed.

Lemma sa_inv_body s : sa_inv dist st s → sa_inv dist st (sa_body N dist rnd s).
Proof.
  intros Hinv.
  destruct (sa_body_cases N dist rnd s)
    as [(temp & calls & ->)|(i & t & e & calls & Ht & _ & _ & _ & ->)].
  - by apply sa_inv_skip.
  - by apply sa_inv_accept.
Qed.

Lemma sa_inv_run k : sa_inv dist st (sa_run N dist rnd k (sa_start dist st)).
Proof.
  induction k as [|k IH]; [apply sa_inv_start|].
  rewrite sa_run_S. by apply sa_inv_body.
Qed.



End AnnealingCost.


(** ** Reachability of the assigned nodes *)

Lemma relax_dist_le k i j tb a b : dist (relax k i j tb) a b ≤ dist tb a b.
Proof.
  destruct (decide (improves tb k i j)) as [Himp|Hno].
  - rewrite relax_improves by done. simpl. rewrite mset_cases.
    case_bool_decide as Hc; [|done]. injection Hc as -> ->.
    destruct Himp as (_ & _ & ?). lia.
  - by rewrite relax_not_improves.
Qed.

Lemma floydWarshall_dist_le N tb a b :
  dist (floydWarshall N tb) a b ≤ dist tb a b.
Proof.
  unfold floydWarshall, pivot.
  apply (for_range_inv (λ tb', dist tb' a b ≤ dist tb a b)); [|done].
  intros k tb1 _ H1.
  apply (for_range_inv (λ tb', dist tb' a b ≤ dist tb a b)); [|done].
  intros i tb2 _ H2.
  apply (for_range_inv (λ tb', dist tb' a b ≤ dist tb a b)); [|done].
  intros j tb3 _ H3. etrans; [apply relax_dist_le|done].
Qed.

(** Whatever the link costs, the table never holds more than [INF], and a
    node is at distance at most 0 from itself. *)
Lemma pipeline_dist_le_INF N links a b :
  dist (floydWarshall N (readInput_tables N links)) a b ≤ INF.
Proof.
  etrans; [apply floydWarshall_dist_le|apply readInput_dist_le_INF].
Qed.

Lemma pipeline_dist_diag N links a :
  dist (floydWarshall N (readInput_tables N links)) a a ≤ 0.
Proof.
  etrans; [apply floydWarshall_dist_le|apply readInput_dist_diag_le].
Qed.

Lemma place_task_reach N dist st idx :
  (∀ i t, tasks st !! i = Some t → dist (start_node t) (end_node t) ≠ INF) →
  ∀ i t, tasks (place_task N dist st idx) !! i = Some t →
         dist (start_node t) (end_node t) ≠ INF.
Proof.
  intros Hall i t.
  destruct (tasks st !! idx) as [t0|] eqn:Ht0.
  - destruct (place_task_cases N dist st idx t0 Ht0)
      as [(b & (_ & [Hb _] & _) & ->)|[_ ->]]; [|apply Hall].
    simpl. intros [(-> & <- & _)|[_ Hi]]%list_lookup_insert_Some; [done|].
    by eapply Hall.
  - unfold place_task. rewrite Ht0. apply Hall.
Qed.

Lemma greedy_reach N dist order st :
  (∀ i t, tasks st !! i = Some t → dist (start_node t) (end_node t) ≠ INF) →
  ∀ i t, tasks (greedy_in_order N dist order st) !! i = Some t →
         dist (start_node t) (end_node t) ≠ INF.
Proof.
  intros Hall. unfold greedy_in_order.
  set (st0 := {| tasks := tasks st; nodes := reset_usage N (nodes st) |}).
  assert (∀ i t, tasks st0 !! i = Some t →
                 dist (start_node t) (end_node t) ≠ INF) as H0 by done.
  clearbody st0. revert st0 H0.
  induction order as [|idx order IH]; intros st0 H0; [done|].
  simpl. apply IH. by apply place_task_reach.
Qed.

Section AnnealingReach.
Context `{DoubleArith}.
Variable N : Z.
Variable dist : matrix.
Variable rnd : nat → Z.

Lemma sa_reach_start st :
  (∀ i t, tasks st !! i = Some t → dist (start_node t) (end_node t) ≠ INF) →
  sa_reach dist (sa_start dist st).
Proof.
  intros Hall. split; [done|]. simpl. intros i t e Ht.
  rewrite list_lookup_fmap, Ht. intros [= <-]. by eapply Hall.
Qed.

Lemma sa_reach_body s :
  sa_reach dist s → sa_reach dist (sa_body N dist rnd s).
Proof.
  intros [Hcur Hbest].
  destruct (sa_body_cases N dist rnd s)
    as [(temp & calls & ->)|(idx & t & e & calls & Ht & _ & Hreach & _ & ->)];
    [done|].
  assert (∀ i t', <[idx:=assign t e (dist (start_node t) e * demand t)]>
                    (sa_tasks s) !! i = Some t' →
                  dist (start_node t') (end_node t') ≠ INF) as Hcur'.
  { intros i t' [(-> & <- & _)|[_ Hi]]%list_lookup_insert_Some; [done|].
    by eapply Hcur. }
  split; simpl; [done|].
  intros i t' e' Ht'. destruct (_ <? _).
  - rewrite list_lookup_fmap, Ht'. intros [= <-]. by eapply Hcur'.
  - apply list_lookup_insert_Some in Ht' as [(-> & <- & _)|[_ Hi]].
    + simpl. by apply Hbest.
    + by apply Hbest.
Qed.

Lemma sa_reach_run st k :
  (∀ i t, tasks st !! i = Some t → dist (start_node t) (end_node t) ≠ INF) →
  sa_reach dist (sa_run N dist rnd k (sa_start dist st)).
Proof.
  intros Hall. induction k as [|k IH]; [by apply sa_reach_start|].
  rewrite sa_run_S. by apply sa_reach_body.
Qed.

Lemma restore_best_reach st k t :
  (∀ i t, tasks st !! i = Some t → dist (start_node t) (end_node t) ≠ INF) →
  t ∈ tasks (restore_best N dist (sa_run N dist rnd k (sa_start dist st))) →
  dist (start_node t) (end_node t) ≠ INF.
Proof.
  intros Hall.
  pose proof (sa_inv_run N dist rnd st k) as [Hshape Hlen _ _ _ _].
  destruct (sa_reach_run st k Hall) as [_ Hbest].
  set (s := sa_run N dist rnd k (sa_start dist st)) in *.
  destruct (restore_best_spec N dist s) as [-> _].
  { by rewrite Hlen, <- (length_fmap shape (tasks st)), <- Hshape, length_fmap. }
  intros (i & t0 & e & -> & Ht0 & He)%elem_of_lookup_zip_with.
  simpl. by eapply Hbest.
Qed.

End AnnealingReach.

(** C10: whatever the link costs, the order in which the planner takes up
    the tasks, the draws and the moment the time check fires, every task
    that the optimizer hands on has an end node at finite distance from its
    start node. *)
Theorem end_node_reachable `{DoubleArith} (N : Z) (links : list Link)
    (lines : list (Z * Z * Z)) (nds : Nodes) (order : list nat)
    (rnd : nat → Z) (deadline : Z → bool) (fuel : nat) (st2 : State)
    (i : nat) (t : Task) :
  let tb := floydWarshall N (readInput_tables N links) in
  let st1 := greedy_in_order N (dist tb) order (mkState (read_tasks lines) nds) in
  optimizeAllocationSA fuel N (dist tb) rnd deadline st1 = Some st2 →
  tasks st2 !! i = Some t →
  dist tb (start_node t) (end_node t) < INF.
Proof.
  intros tb st1 Hrun Hin%list_elem_of_lookup_2.
  assert (∀ i t0, tasks st1 !! i = Some t0 →
            dist tb (start_node t0) (end_node t0) ≠ INF) as Hst1.
  { apply greedy_reach. simpl. intros j t0 Ht0.
    destruct (read_tasks_fresh lines j t0 Ht0) as [-> _].
    pose proof (pipeline_dist_diag N links (start_node t0)).
    unfold tb, INF. lia. }
  unfold optimizeAllocationSA in Hrun.
  destruct (sa_loop _ _ _ _ _ _) as [s|] eqn:Hloop; [|done].
  injection Hrun as <-.
  apply sa_loop_run in Hloop as [k ->].
  pose proof (restore_best_reach N (dist tb) rnd st1 k t Hst1 Hin).
  pose proof (pipeline_dist_le_INF N links (start_node t) (end_node t)).
  unfold tb in *. lia.
Qed.

(** ** Usage against capacity *)







Section AnnealingUsage.
Context `{DoubleArith}.
Variable N : Z.
Variable dist : matrix.
Variable rnd : nat → Z.
Variable st : State.
Variable n : Z.
Hypothesis demand_nonneg : Forall (λ t, 0 ≤ demand t) (tasks st).





End AnnealingUsage.


(** ** The optimizer on the sample input *)



(** The planner leaves cost 5 (task 1 on node 2, task 2 on node 3); the
    optimizer reaches cost 3 (task 1 on node 3, task 2 on node 2). *)
Example optimizeAllocationSA_demo :
  calculateTotalCost dist_demo (tasks planned_demo) = 5 ∧
  match optimizeAllocationSA 2000 4 dist_demo draws_demo deadline_demo
          planned_demo with
  | Some st' => end_node <$> tasks st' = [3; 2] ∧
                calculateTotalCost dist_demo (tasks st') = 3
  | None => False
  end.
Proof. vm_compute. by repeat split. Qed.

Lemma end_node_reachable_witness :
  let tb := floydWarshall 4 (readInput_tables 4 (link_lines input_demo)) in
  dist tb 4 3 < INF.
Proof.
  apply (end_node_reachable 4 (link_lines input_demo) lines_demo nodes_demo
           [0%nat; 1%nat] draws_demo (λ _, true) 1
           (restore_best 4 dist_demo
              (sa_start dist_demo
                 (greedy_in_order 4 dist_demo [0%nat; 1%nat]
                    (mkState (read_tasks lines_demo) nodes_demo))))
           1%nat (mkTask 2 4 1 3 3 [] 0 4 false)).
  - reflexivity.
  - vm_compute. reflexivity.
Defined.


Example usage_demo :
  let st1 := planned_demo in
  let s := sa_run 4 dist_demo draws_demo 2 (sa_start dist_demo st1) in
  let st2 := restore_best 4 dist_demo s in
  (λ i, current_usage (nodes st1 i)) <$> [1; 2; 3; 4] = [0; 2; 1; 0] ∧
  (λ i, load (tasks st1) i) <$> [1; 2; 3; 4] = [0; 2; 1; 0] ∧
  (λ i, current_usage (sa_nodes s i)) <$> [1; 2; 3; 4] = [0; 1; 2; 0] ∧
  (λ i, current_usage (nodes st2 i)) <$> [1; 2; 3; 4] = [0; 1; 2; 0] ∧
  (λ i, capacity (nodes st2 i)) <$> [1; 2; 3; 4] = [0; 2; 3; 0].
Proof. vm_compute. by repeat split. Qed.


(** ** Cooling *)

(** C8 (as amended): a pass whose candidate node differs from the task's
    current node and is reachable from its start node multiplies the
    temperature by the cooling factor and resets it to [T_start * 0.5] when
    the product is below the floor, whether the move is accepted, refused by
    the acceptance test or refused for lack of capacity; a pass whose
    candidate is the current node or is unreachable ends in [continue] and
    leaves the temperature as it was. *)
Theorem sa_body_temperature `{DoubleArith} (N : Z) (dist : matrix)
    (rnd : nat → Z) (s : Annealer) (t : Task) :
  let t_idx :=
    Z.to_nat (Z.rem (rnd (rand_calls s)) (Z.of_nat (length (sa_tasks s)))) in
  let new_node := Z.rem (rnd (S (rand_calls s))) N + 1 in
  let cooled := dmul (current_temp s) cooling_rate in
  sa_tasks s !! t_idx = Some t →
  (new_node ≠ end_node t ∧ dist (start_node t) new_node ≠ INF →
   current_temp (sa_body N dist rnd s)
     = if dlt cooled T_end then dmul T_start one_half else cooled) ∧
  (new_node = end_node t ∨ dist (start_node t) new_node = INF →
   current_temp (sa_body N dist rnd s) = current_temp s).
Proof.
  intros t_idx new_node cooled Ht. unfold sa_body.
  fold t_idx. fold new_node. rewrite Ht.
  destruct (Z.eqb_spec new_node (end_node t)) as [Heq|Hne];
    destruct (Z.eqb_spec (dist (start_node t) new_node) INF) as [Hinf|Hreach];
    simpl; (split; [intros [? ?]|intros [?|?]]); try done.
  - destruct (_ <=? _); [|done].
    destruct (_ <? 0); [done|]. by destruct (metropolis _ _ _).
Qed.

Lemma sa_body_temperature_witness :
  let s := sa_start dist_demo planned_demo in
  let t := mkTask 1 1 2 2 2 [] 0 1 false in
  let cooled := dmul (current_temp s) cooling_rate in
  (3 ≠ end_node t ∧ dist_demo (start_node t) 3 ≠ INF →
   current_temp (sa_body 4 dist_demo draws_demo s)
     = if dlt cooled T_end then dmul T_start one_half else cooled) ∧
  (3 = end_node t ∨ dist_demo (start_node t) 3 = INF →
   current_temp (sa_body 4 dist_demo draws_demo s) = current_temp s).
Proof.
  apply (sa_body_temperature 4 dist_demo draws_demo
           (sa_start dist_demo planned_demo) (mkTask 1 1 2 2 2 [] 0 1 false)).
  vm_compute. reflexivity.
Defined.

(** C8 fails as stated on a pass that proposes the node the task is on: the
    draws 0 and 1 pick task 1 and its current node 2, and the temperature
    after the pass is still 2000, not 2000 * 0.999. *)
Lemma sa_body_continue_keeps_temperature :
  let s := sa_start dist_demo planned_demo in
  let s' := sa_body 4 dist_demo (λ k, Z.of_nat k) s in
  end_node <$> sa_tasks s = [2; 3] ∧
  iter s' = 1 ∧
  current_temp s' = Qmake 2000 1 ∧
  ¬ (current_temp s' == dmul (current_temp s) cooling_rate)%Q.
Proof. vm_compute. repeat split; done. Qed.

(** * Runs of the whole program *)

(** ** More fuel changes no result *)






Section Runs.
Context `{DoubleArith}.



(** ** What a run depends on *)




End Runs.

(** * Path reconstruction *)

Lemma follow_acc fuel nh curr e acc :
  follow fuel nh curr e acc = (acc ++.) <$> follow fuel nh curr e [].
Proof.
  revert curr acc. induction fuel as [|fuel IH]; intros curr acc; simpl.
  - destruct (curr =? e); simpl; [by rewrite app_nil_r|done].
  - destruct (curr =? e); simpl; [by rewrite app_nil_r|].
    rewrite (IH _ (acc ++ _)), (IH _ [_]).
    destruct (follow fuel nh _ e []) as [p|]; simpl; [|done].
    by rewrite <- app_assoc.
Qed.

(** C9 (as amended): one call of [reconstructPath] appends to the task's
    path a sequence that is determined by the start node, the end node and
    the routing table alone; a second call on the same task appends the same
    sequence once more, so that the path then holds it twice. *)
Theorem reconstructPath_repeated (fuel : nat) (nh : matrix) (t t1 : Task) :
  reconstructPath fuel nh t = Some t1 →
  ∃ p, (if start_node t =? end_node t then p = []
        else follow fuel nh (start_node t) (end_node t) [] = Some p) ∧
       path t1 = path t ++ p ∧
       ∃ t2, reconstructPath fuel nh t1 = Some t2 ∧
             path t2 = path t ++ p ++ p.
Proof.
  unfold reconstructPath.
  destruct (start_node t =? end_node t) eqn:Hse.
  - intros [= <-]. exists []. rewrite Hse, !app_nil_r. eauto.
  - rewrite follow_acc.
    destruct (follow fuel nh (start_node t) (end_node t) []) as [p|] eqn:Hp;
      [|done].
    simpl. intros [= <-]. exists p. simpl. rewrite Hse.
    split; [done|]. split; [done|].
    rewrite follow_acc, Hp. simpl. eexists. split; [done|].
    simpl. by rewrite <- app_assoc.
Qed.

Lemma reconstructPath_repeated_witness :
  ∃ p, (if 1 =? 3 then p = []
        else follow 5 next_hop_demo 1 3 [] = Some p) ∧
       [2; 3] = [] ++ p ∧
       ∃ t2, reconstructPath 5 next_hop_demo (mkTask 7 1 1 3 4 [2; 3] 0 1 false)
               = Some t2 ∧
             path t2 = [] ++ p ++ p.
Proof.
  apply (reconstructPath_repeated 5 next_hop_demo
           (mkTask 7 1 1 3 4 [] 0 1 false)
           (mkTask 7 1 1 3 4 [2; 3] 0 1 false)).
  vm_compute. reflexivity.
Defined.

(** C9 fails as stated: the second call does not leave the path as the
    first call made it. *)
Lemma reconstructPath_not_idempotent :
  let t := mkTask 7 1 1 3 4 [] 0 1 false in
  match reconstructPath 5 next_hop_demo t with
  | Some t1 =>
      path t1 = [2; 3] ∧
      match reconstructPath 5 next_hop_demo t1 with
      | Some t2 => path t2 = [2; 3; 2; 3] ∧ path t2 ≠ path t1
      | None => False
      end
  | None => False
  end.
Proof. vm_compute. repeat split; done. Qed.

(** * The migration simulator *)

(** ** Handing out the link slots of one step *)



Section Select.
Variable adj : matrix.
Variable ts : list Task.
Hypothesis adj_sym : ∀ a b, adj a b = adj b a.
Hypothesis adj_nonneg : ∀ a b, 0 ≤ adj a b.
Hypothesis ts_wf : Forall sim_wf ts.



Lemma try_move_moved acc i :
  (try_move adj ts acc i).2 = acc.2 ∨ (try_move adj ts acc i).2 = acc.2 ++ [i].
Proof.
  unfold try_move. destruct (ts !! i); [|by left].
  destruct (finished _); [by left|]. destruct (_ <? _); [by right|by left].
Qed.



End Select.

(** The slots go to unfinished tasks, each at most once, whatever the
    bandwidths are. *)
Lemma select_moves_unfinished adj ts :
  NoDup (select_moves adj ts) ∧
  ∀ i, i ∈ select_moves adj ts → ∃ t, ts !! i = Some t ∧ finished t = false.
Proof.
  unfold select_moves.
  assert (∀ idxs acc,
            (∀ i, i ∈ acc.2 → ∃ t, ts !! i = Some t ∧ finished t = false) →
            (∀ i, i ∈ (foldl (try_move adj ts) acc idxs).2 →
                  ∃ t, ts !! i = Some t ∧ finished t = false) ∧
            ∃ m, (foldl (try_move adj ts) acc idxs).2 = acc.2 ++ m ∧
                 m `sublist_of` idxs) as Hfold.
  { induction idxs as [|i idxs IH]; intros acc Hacc.
    { split; [done|]. exists []. by rewrite app_nil_r. }
    simpl. destruct (IH (try_move adj ts acc i)) as [H1 (m & Hm & Hsub)].
    { unfold try_move. destruct (ts !! i) as [t|] eqn:Hi; [|done].
      destruct (finished t) eqn:Hf; [done|]. destruct (_ <? _); [|done].
      simpl. intros j [Hj| ->%list_elem_of_singleton]%elem_of_app; [auto|eauto]. }
    split; [done|]. rewrite Hm.
    destruct (try_move_moved adj ts acc i) as [->| ->].
    - exists m. split; [done|]. by apply sublist_cons.
    - exists (i :: m). rewrite <- app_assoc. split; [done|].
      by apply sublist_skip. }
  destruct (Hfold (seq 0 (length ts)) (∅, [])) as [H1 (m & Hm & Hsub)].
  { simpl. intros i Hi. inversion Hi. }
  split; [|done].
  rewrite Hm. simpl. eapply sublist_NoDup; [apply NoDup_seq|exact Hsub].
Qed.

(** With no bandwidth on the link that each unfinished task needs next, no
    task gets a slot. *)
Lemma select_moves_no_bandwidth adj ts :
  (∀ t, t ∈ ts → finished t = false →
        adj (current_pos_node t) (next_node t) ≤ 0) →
  select_moves adj ts = [].
Proof.
  intros Hbw. unfold select_moves.
  assert (∀ idxs, foldl (try_move adj ts) (∅, []) idxs = (∅, [])) as ->; [|done].
  induction idxs as [|i idxs IH]; [done|]. simpl.
  replace (try_move adj ts (∅, []) i) with ((∅, []) : gmap Z Z * list nat);
    [done|].
  unfold try_move. destruct (ts !! i) as [t|] eqn:Hi; [|done].
  destruct (finished t) eqn:Hf; [done|]. simpl. rewrite lookup_empty. simpl.
  pose proof (Hbw t (list_elem_of_lookup_2 _ _ _ Hi) Hf).
  destruct (Z.ltb_spec 0 (adj (current_pos_node t) (next_node t))); [lia|done].
Qed.

(** ** Carrying out the moves of one step *)

Lemma move_entries_cons now (ts : list Task) (i : nat) moved :
  move_entries now ts (i :: moved) =
    match ts !! i with
    | Some t => mkLog now (tid t) (current_pos_node t) (next_node t)
                :: move_entries now ts moved
    | None => move_entries now ts moved
    end.
Proof. unfold move_entries. csimpl. by destruct (ts !! i). Qed.

Lemma move_entries_insert now (ts : list Task) (idx : nat) t' moved :
  idx ∉ moved →
  move_entries now (<[idx:=t']> ts) moved = move_entries now ts moved.
Proof.
  intros Hnot. induction moved as [|i moved IH]; [done|].
  apply not_elem_of_cons in Hnot as [Hne Hnot].
  rewrite !move_entries_cons, list_lookup_insert_ne by done. by rewrite IH.
Qed.

Lemma move_task_Some now (ts : list Task) lg (idx : nat) t :
  ts !! idx = Some t →
  move_task now (ts, lg) idx =
    (<[idx:=advance t]> ts,
     lg ++ [mkLog now (tid t) (current_pos_node t) (next_node t)]).
Proof. intros Hi. unfold move_task. simpl. by rewrite Hi. Qed.

Lemma move_task_None now (ts : list Task) lg (idx : nat) :
  ts !! idx = None → move_task now (ts, lg) idx = (ts, lg).
Proof. intros Hi. unfold move_task. simpl. by rewrite Hi. Qed.

Lemma move_fold now moved :
  NoDup moved → ∀ ts lg,
  (foldl (move_task now) (ts, lg) moved).2 = lg ++ move_entries now ts moved ∧
  ∀ j, (foldl (move_task now) (ts, lg) moved).1 !! j =
         if bool_decide (j ∈ moved) then advance <$> ts !! j else ts !! j.
Proof.
  induction 1 as [|idx moved Hnot Hnd IH]; intros ts lg.
  { split; [simpl; by rewrite app_nil_r|]. intros j.
    rewrite bool_decide_eq_false_2; [done|]. intros Hj. inversion Hj. }
  simpl foldl. rewrite move_entries_cons.
  destruct (ts !! idx) as [t|] eqn:Hidx.
  - rewrite (move_task_Some _ _ _ _ t) by done.
    destruct (IH (<[idx:=advance t]> ts)
                (lg ++ [mkLog now (tid t) (current_pos_node t) (next_node t)]))
      as [-> Hlook].
    rewrite move_entries_insert, <- app_assoc by done. split; [done|].
    intros j. rewrite Hlook.
    destruct (decide (j = idx)) as [->|Hne].
    + rewrite bool_decide_eq_false_2 by done.
      rewrite (bool_decide_eq_true_2 (idx ∈ idx :: moved)) by left.
      rewrite list_lookup_insert_eq by (by eapply lookup_lt_Some).
      by rewrite Hidx.
    + rewrite list_lookup_insert_ne by done.
      apply if_bool_decide_ext. rewrite elem_of_cons. tauto.
  - rewrite move_task_None by done.
    destruct (IH ts lg) as [-> Hlook]. split; [done|].
    intros j. rewrite Hlook.
    destruct (decide (j = idx)) as [->|Hne].
    + rewrite bool_decide_eq_false_2 by done.
      rewrite (bool_decide_eq_true_2 (idx ∈ idx :: moved)) by left.
      by rewrite Hidx.
    + apply if_bool_decide_ext. rewrite elem_of_cons. tauto.
Qed.


Lemma advance_wf t : sim_wf t → sim_wf (advance t).
Proof.
  unfold sim_wf, advance. simpl. intros Hwf.
  destruct (Nat.leb_spec (length (path t)) (S (path_idx t))) as [|Hlt]; [done|].
  intros Hf. destruct (Hwf Hf) as (Hidx & Hpos & Hpath).
  split; [done|]. split; [|done]. unfold next_node.
  apply (proj1 (list.Forall_forall _ _) Hpath).
  apply list_elem_of_In, nth_In. lia.
Qed.

Lemma move_fold_wf now moved ts lg :
  NoDup moved → Forall sim_wf ts →
  Forall sim_wf (foldl (move_task now) (ts, lg) moved).1.
Proof.
  intros Hnd Hwf. destruct (move_fold now moved Hnd ts lg) as [_ Hlook].
  apply Forall_lookup. intros j t'. rewrite Hlook.
  rewrite Forall_lookup in Hwf.
  case_bool_decide.
  - destruct (ts !! j) as [t|] eqn:Hj; [|done]. intros [= <-].
    apply advance_wf. by eapply Hwf.
  - apply Hwf.
Qed.

Lemma sum_list_insert (l : list nat) (i x y : nat) :
  l !! i = Some x → (sum_list (<[i:=y]> l) + x = sum_list l + y)%nat.
Proof.
  revert i. induction l as [|z l IH]; intros [|i] Hi; simplify_eq/=; [lia|].
  specialize (IH i Hi). lia.
Qed.

Lemma move_fold_remaining now moved :
  NoDup moved → ∀ ts lg,
  (∀ i, i ∈ moved →
     ∃ t, ts !! i = Some t ∧ finished t = false ∧
          (path_idx t < length (path t))%nat) →
  (remaining (foldl (move_task now) (ts, lg) moved).1 + length moved
   ≤ remaining ts)%nat.
Proof.
  induction 1 as [|idx moved Hnot Hnd IH]; intros ts lg Hall; [simpl; lia|].
  destruct (Hall idx) as (t & Hidx & Hf & Hlt); [left|].
  simpl foldl. rewrite (move_task_Some _ _ _ _ t) by done. simpl length.
  assert (remaining (<[idx:=advance t]> ts) + 1 ≤ remaining ts)%nat as Hstep.
  { unfold remaining. rewrite list_fmap_insert.
    pose proof (sum_list_insert (hops_left <$> ts) idx (hops_left t)
                  (hops_left (advance t))) as Hs.
    rewrite list_lookup_fmap, Hidx in Hs. specialize (Hs eq_refl).
    assert (hops_left (advance t) + 1 ≤ hops_left t)%nat; [|lia].
    unfold hops_left, advance. simpl. rewrite Hf.
    destruct (Nat.leb_spec (length (path t)) (S (path_idx t))); lia. }
  specialize (IH (<[idx:=advance t]> ts)
                (lg ++ [mkLog now (tid t) (current_pos_node t) (next_node t)])).
  etrans; [|exact Hstep].
  assert (∀ n m k : nat, (n + k ≤ m → n + S k ≤ m + 1)%nat) as Harith by lia.
  apply Harith, IH. intros i Hi.
  destruct (Hall i) as (ti & Hti & Hfi & Hli); [by right|].
  exists ti. rewrite list_lookup_insert_ne; [done|].
  intros ->. done.
Qed.

(** ** The whole simulation *)

Lemma sim_loop_unfold fuel adj s :
  sim_loop (S fuel) adj s =
    if forallb finished (sim_tasks s) then Some s
    else match select_moves adj (sim_tasks s) with
         | [] => Some (mkSim (sim_tasks s) (logs s) (current_time s + 1))
         | moved =>
             let r := foldl (move_task (current_time s + 1))
                        (sim_tasks s, logs s) moved in
             sim_loop fuel adj (mkSim r.1 r.2 (current_time s + 1))
         end.
Proof. done. Qed.


Section Simulation.
Variable adj : matrix.
Hypothesis adj_sym : ∀ a b, adj a b = adj b a.
Hypothesis adj_nonneg : ∀ a b, 0 ≤ adj a b.



End Simulation.

Lemma sim_step_remaining adj s :
  Forall sim_wf (sim_tasks s) →
  let moved := select_moves adj (sim_tasks s) in
  let r := foldl (move_task (current_time s + 1)) (sim_tasks s, logs s) moved in
  (remaining r.1 + length moved ≤ remaining (sim_tasks s))%nat.
Proof.
  intros Hwf moved r.
  destruct (select_moves_unfinished adj (sim_tasks s)) as [Hnd Hunf].
  apply move_fold_remaining; [done|].
  intros j Hj. destruct (Hunf j Hj) as (t & Ht & Hf).
  exists t. split; [done|]. split; [done|].
  apply (proj1 (Forall_lookup _ _) Hwf j t Ht Hf).
Qed.

(** The loop ends within as many steps as the unfinished tasks have hops
    left, plus the step that finds out. *)
Lemma sim_loop_terminates adj s :
  Forall sim_wf (sim_tasks s) →
  ∃ r, sim_loop (S (remaining (sim_tasks s))) adj s = Some r.
Proof.
  assert (∀ n s, Forall sim_wf (sim_tasks s) →
            (remaining (sim_tasks s) ≤ n)%nat →
            ∃ r, sim_loop (S n) adj s = Some r) as Hgen; [|eauto].
  clear s. induction n as [|n IH]; intros s Hwf Hrem;
    rewrite sim_loop_unfold;
    (destruct (forallb finished (sim_tasks s)); [eauto|]);
    pose proof (sim_step_remaining adj s Hwf) as Hdec; simpl in Hdec;
    (destruct (select_moves adj (sim_tasks s)) as [|i moved] eqn:Hsel;
     [eauto|]); simpl in Hdec.
  - lia.
  - apply IH; simpl; [|lia].
    apply (move_fold_wf _ (i :: moved)); [|done].
    rewrite <- Hsel. apply select_moves_unfinished.
Qed.

(** ** The tasks as the first loop prepares them *)




(** ** The tables that the simulator reads *)

Lemma floydWarshall_adj N tb :
  adj_bandwidth (floydWarshall N tb) = adj_bandwidth tb.
Proof.
  unfold floydWarshall.
  apply (for_range_inv (λ tb', adj_bandwidth tb' = adj_bandwidth tb)); [|done].
  intros k tb' _ <-. apply pivot_adj.
Qed.

Lemma init_adj N a b : adj_bandwidth (init N globals0) a b = 0.
Proof.
  destruct (decide (1 ≤ a ≤ N ∧ 1 ≤ b ≤ N)) as [Hin|Hout].
  - by destruct (proj1 (init_spec N globals0 a b) Hin) as (_ & -> & _).
  - by destruct (proj2 (init_spec N globals0 a b) Hout) as (_ & -> & _).
Qed.






Example crossings_demo :
  crossings (logs sim_demo) 1 1 2 = 1 ∧ crossings (logs sim_demo) 2 2 1 = 1 ∧
  crossings (logs sim_demo) 3 1 2 = 0.
Proof. vm_compute. by repeat split. Qed.

Lemma sim_loop_stalled adj s fuel :
  forallb finished (sim_tasks s) = false →
  select_moves adj (sim_tasks s) = [] →
  sim_loop (S fuel) adj s
    = Some (mkSim (sim_tasks s) (logs s) (current_time s + 1)).
Proof. intros Hunf Hnone. by rewrite sim_loop_unfold, Hunf, Hnone. Qed.

(** However the loop is left, either every task is finished or the tasks
    are such that a step hands out no slot. *)
Lemma sim_loop_outcome fuel adj s r :
  sim_loop fuel adj s = Some r →
  forallb finished (sim_tasks r) = true ∨
  (forallb finished (sim_tasks r) = false ∧ select_moves adj (sim_tasks r) = []).
Proof.
  revert s. induction fuel as [|fuel IH]; intros s.
  - simpl. destruct (forallb finished (sim_tasks s)) eqn:Hfin; [|done].
    intros ?. simplify_eq. by left.
  - rewrite sim_loop_unfold.
    destruct (forallb finished (sim_tasks s)) eqn:Hfin.
    { intros ?. simplify_eq. by left. }
    destruct (select_moves adj (sim_tasks s)) as [|i moved] eqn:Hsel.
    + intros ?. simplify_eq. by right.
    + apply IH.
Qed.

(** C4 (as amended): the simulation loop always comes to an end, within as
    many steps as the unfinished tasks have hops left plus one, and it ends
    either with every task finished or on tasks for which a step hands out
    no slot; when a step hands out no slot while unfinished tasks remain, the
    loop is left at that very step, with the tasks and the log as they were
    and [total_time_steps] the number of that step.  The state so returned
    is all that the simulator produces: it holds no status. *)
Theorem simulation_stops (adj : matrix) (s : Sim) :
  Forall sim_wf (sim_tasks s) →
  (∃ r, sim_loop (S (remaining (sim_tasks s))) adj s = Some r ∧
        (forallb finished (sim_tasks r) = true ∨
         (forallb finished (sim_tasks r) = false ∧
          select_moves adj (sim_tasks r) = []))) ∧
  (forallb finished (sim_tasks s) = false →
   select_moves adj (sim_tasks s) = [] →
   ∀ fuel, ∃ r, sim_loop (S fuel) adj s = Some r ∧
                sim_tasks r = sim_tasks s ∧ logs r = logs s ∧
                total_time_steps r = current_time s + 1).
Proof.
  intros Hwf. split.
  - destruct (sim_loop_terminates adj s Hwf) as [r Hr].
    exists r. split; [done|]. by eapply sim_loop_outcome.
  - intros Hunf Hnone fuel. rewrite sim_loop_stalled by done. eauto.
Qed.

Lemma simulation_stops_witness :
  let adj := adj_bandwidth (readInput_tables 2 (link_lines input_stall)) in
  let s := mkSim [mkTask 1 1 1 2 1 [2] 0 1 false] [] 0 in
  (∃ r, sim_loop (S (remaining (sim_tasks s))) adj s = Some r ∧
        (forallb finished (sim_tasks r) = true ∨
         (forallb finished (sim_tasks r) = false ∧
          select_moves adj (sim_tasks r) = []))) ∧
  (forallb finished (sim_tasks s) = false →
   select_moves adj (sim_tasks s) = [] →
   ∀ fuel, ∃ r, sim_loop (S fuel) adj s = Some r ∧
                sim_tasks r = sim_tasks s ∧ logs r = logs s ∧
                total_time_steps r = current_time s + 1).
Proof.
  apply (simulation_stops
           (adj_bandwidth (readInput_tables 2 (link_lines input_stall)))
           (mkSim [mkTask 1 1 1 2 1 [2] 0 1 false] [] 0)).
  repeat constructor; unfold key_range; simpl; lia.
Defined.

(** C4 fails as stated: nothing in the output tells a stalled migration
    from a completed one explicitly.  With bandwidth 0 the task never leaves
    node 1, and the program prints the same task, node, cost and step lines
    as with bandwidth 1, where the task arrives in step 1; the only
    difference is the missing log line. *)
Lemma stalled_run_prints_no_status :
  main 10 input_stall env_early
    = Some [[1; 1; 2; 1]; [1; 0]; [2; 1]; [1]; [1]] ∧
  main 10 input_flow env_early
    = Some [[1; 1; 2; 1]; [1; 0]; [2; 1]; [1]; [1]; [1; 1; 1; 2]] ∧
  match simulateMigration 10
          (floydWarshall 2 (readInput_tables 2 (link_lines input_stall)))
          [mkTask 1 1 1 2 1 [] 0 1 false] with
  | Some r => forallb finished (sim_tasks r) = false ∧ logs r = [] ∧
              total_time_steps r = 1
  | None => False
  end.
Proof. vm_compute. by repeat split. Qed.

(** * Every run prints an output *)

(** ** The tasks stay on the nodes *)





Section AnnealingNodes.
Context `{DoubleArith}.
Variable N : Z.
Variable dist : matrix.
Variable rnd : nat → Z.
Hypothesis rnd_nonneg : ∀ k, 0 ≤ rnd k.






End AnnealingNodes.

(** ** The paths can be built *)



(** ** The whole run *)


(** ** Two runs of the program *)





(** * Further properties of the tables *)

(** ** init and the input lines *)

(** X1: [init] overwrites exactly the cells of the block [1..N] x [1..N]
    (distance 0 on the diagonal and [INF] elsewhere, bandwidth 0, next hop
    the target itself) and leaves every other cell of the three tables as it
    was; with [N] below 1 it writes nothing. *)
Theorem init_resets_block (N : Z) (tb : Tables) (a b : Z) :
  let inside := bool_decide (1 ≤ a ≤ N ∧ 1 ≤ b ≤ N) in
  dist (init N tb) a b
    = (if inside then (if a =? b then 0 else INF) else dist tb a b) ∧
  adj_bandwidth (init N tb) a b
    = (if inside then 0 else adj_bandwidth tb a b) ∧
  next_hop (init N tb) a b = (if inside then b else next_hop tb a b).
Proof.
  intros inside. destruct (init_spec N tb a b) as [Hin Hout].
  unfold inside. case_bool_decide; [by apply Hin|by apply Hout].
Qed.

Lemma foldr_min_le (d : Z) (l : list Z) (x : Z) :
  x ∈ l → foldr Z.min d l ≤ x.
Proof.
  induction l as [|y l IH]; [by intros ?%elem_of_nil|].
  intros [->|Hx]%elem_of_cons; simpl; [lia|]. specialize (IH Hx). lia.
Qed.

Lemma foldr_min_snoc (d : Z) (l : list Z) (c : Z) :
  foldr Z.min d (l ++ [c]) = Z.min (foldr Z.min d l) c.
Proof. induction l as [|y l IH]; simpl; [lia|]. rewrite IH. lia. Qed.

Lemma link_costs_snoc links l a b :
  link_costs (links ++ [l]) a b =
    link_costs links a b ++ (if bool_decide (joins l a b) then [lc l] else []).
Proof.
  unfold link_costs. rewrite filter_app, fmap_app. f_equal.
  rewrite filter_cons, filter_nil.
  case_bool_decide; by case_decide.
Qed.

Lemma read_links_dist_min links tb :
  (∀ a b, dist tb a b = dist tb b a) →
  ∀ a b, dist (read_links links tb) a b
         = foldr Z.min (dist tb a b) (link_costs links a b).
Proof.
  intros Hsym. induction links as [|l links IH] using rev_ind; [done|].
  intros a b. unfold read_links in *.
  rewrite foldl_snoc, read_link_dist, link_costs_snoc.
  destruct (read_links_dist links tb Hsym (lu l) (lv l)) as (Hs & _).
  unfold read_links in Hs.
  case_bool_decide as Hc.
  - destruct Hc as [Hjoin Hlt]. rewrite bool_decide_eq_true_2 by done.
    rewrite foldr_min_snoc, <- IH.
    destruct Hjoin as [[<- <-]|[<- <-]]; [|rewrite <- Hs]; lia.
  - case_bool_decide as Hjoin.
    + rewrite foldr_min_snoc, <- IH.
      assert (¬ lc l < dist (foldl read_link tb links) (lu l) (lv l)) as Hge
        by tauto.
      destruct Hjoin as [[<- <-]|[<- <-]]; [|rewrite <- Hs]; lia.
    + by rewrite app_nil_r, IH.
Qed.

(** X2: of several link lines between the same two nodes [readInput] keeps
    the cheapest: the distance it leaves for a pair is the least of the
    costs of the lines that join the pair and of what [init] put there
    ([INF] for two different nodes of [1..N], 0 otherwise). *)
Theorem readInput_keeps_cheapest (N : Z) (links : list Link) (a b : Z) :
  dist (readInput_tables N links) a b =
    foldr Z.min
      (if bool_decide (1 ≤ a ≤ N ∧ 1 ≤ b ≤ N ∧ a ≠ b) then INF else 0)
      (link_costs links a b).
Proof.
  unfold readInput_tables.
  rewrite read_links_dist_min by apply init_dist_sym. f_equal.
  destruct (init_spec N globals0 a b) as [Hin Hout].
  destruct (decide (1 ≤ a ≤ N ∧ 1 ≤ b ≤ N)) as [Hr|Hr].
  - destruct (Hin Hr) as (-> & _).
    destruct (Z.eqb_spec a b); case_bool_decide; lia.
  - destruct (Hout Hr) as (-> & _).
    rewrite bool_decide_eq_false_2; [done|tauto].
Qed.

Lemma last_filter_snoc {A : Type} (P : A → Prop) `{!∀ x, Decision (P x)}
    (l : list A) (x : A) :
  last (filter P (l ++ [x])) = if bool_decide (P x) then Some x else last (filter P l).
Proof.
  rewrite filter_app, filter_cons, filter_nil.
  case_bool_decide; case_decide; try done.
  - apply last_snoc.
  - by rewrite app_nil_r.
Qed.

Lemma read_links_adj_last links tb a b :
  adj_bandwidth (read_links links tb) a b
  = from_option lb (adj_bandwidth tb a b) (last_link links a b).
Proof.
  unfold read_links, last_link.
  induction links as [|l links IH] using rev_ind; [done|].
  rewrite foldl_snoc, read_link_adj, last_filter_snoc, IH.
  by case_bool_decide.
Qed.

(** X3: the bandwidth that [readInput] leaves for a pair of nodes is the
    one of the last link line that joins them, in either direction, and 0
    when no line does; so with several lines for one pair the cost kept is
    the least one but the bandwidth is the last one. *)
Theorem readInput_bandwidth_last (N : Z) (links : list Link) (a b : Z) :
  adj_bandwidth (readInput_tables N links) a b
  = from_option lb 0 (last_link links a b).
Proof.
  unfold readInput_tables. by rewrite read_links_adj_last, init_adj.
Qed.

(** X4: a node that several node lines name has the capacity of the last
    of them; every node line resets the usage to 0; a node that no line
    names keeps the zero entry of the global array, id 0 included. *)
Theorem read_nodes_last (lines : list (Z * Z)) (i : Z) :
  read_nodes lines i
  = from_option (λ line, mkNode line.1 line.2 0) (mkNode 0 0 0)
      (last_node_line lines i).
Proof.
  unfold read_nodes, last_node_line.
  induction lines as [|line lines IH] using rev_ind; [done|].
  rewrite foldl_snoc, last_filter_snoc. unfold read_node at 1, set_node.
  destruct (Z.eqb_spec i line.1) as [->|Hne].
  - by rewrite bool_decide_eq_true_2.
  - rewrite bool_decide_eq_false_2 by done. apply IH.
Qed.

(** ** floydWarshall *)

Lemma relax_elsewhere k i j tb a b :
  (a, b) ≠ (i, j) →
  dist (relax k i j tb) a b = dist tb a b ∧
  next_hop (relax k i j tb) a b = next_hop tb a b.
Proof.
  intros Hne. unfold relax.
  destruct (_ && _); [|done]. destruct (_ <? _); [|done].
  simpl. by rewrite !mset_ne.
Qed.

(** X5: whatever the tables hold, [floydWarshall] leaves the bandwidths as
    they are, never raises a distance, and writes no distance and no next
    hop outside the block [1..N] x [1..N]. *)
Theorem floydWarshall_untouched (N : Z) (tb : Tables) (a b : Z) :
  adj_bandwidth (floydWarshall N tb) = adj_bandwidth tb ∧
  dist (floydWarshall N tb) a b ≤ dist tb a b ∧
  (¬ (1 ≤ a ≤ N ∧ 1 ≤ b ≤ N) →
   dist (floydWarshall N tb) a b = dist tb a b ∧
   next_hop (floydWarshall N tb) a b = next_hop tb a b).
Proof.
  split; [apply floydWarshall_adj|]. split; [apply floydWarshall_dist_le|].
  intros Hout. unfold floydWarshall, pivot.
  set (P := λ tb', dist tb' a b = dist tb a b ∧
                   next_hop tb' a b = next_hop tb a b).
  apply (for_range_inv P); [|done]. intros k tb1 _ H1.
  apply (for_range_inv P); [|done]. intros i tb2 Hi H2.
  apply (for_range_inv P); [|done]. intros j tb3 Hj [H3 H3'].
  unfold P. destruct (relax_elsewhere k i j tb3 a b) as [-> ->]; [|done].
  intros [= -> ->]. lia.
Qed.

Lemma improves_sym tb k a b :
  (∀ x y, dist tb x y = dist tb y x) →
  improves tb k a b ↔ improves tb k b a.
Proof.
  intros Hsym. unfold improves.
  rewrite (Hsym b k), (Hsym k a), (Hsym b a). lia.
Qed.

Lemma pivot_sym N k tb :
  dist tb k k = 0 →
  (∀ a b, dist tb a b = dist tb b a) →
  ∀ a b, dist (pivot N k tb) a b = dist (pivot N k tb) b a.
Proof.
  intros Hk Hsym a b.
  destruct (pivot_spec N k tb a b Hk) as [-> _].
  destruct (pivot_spec N k tb b a Hk) as [-> _].
  rewrite (if_bool_decide_ext ((1 ≤ b ≤ N ∧ 1 ≤ a ≤ N) ∧ improves tb k b a)
             ((1 ≤ a ≤ N ∧ 1 ≤ b ≤ N) ∧ improves tb k a b))
    by (rewrite (improves_sym tb k a b Hsym); tauto).
  rewrite (Hsym b k), (Hsym k a), (Hsym b a).
  case_bool_decide; lia.
Qed.

Lemma floydWarshall_inv_sym N w tb h0 :
  fw_inv N w 0 tb h0 →
  (∀ a b, dist tb a b = dist tb b a) →
  ∀ a b, dist (floydWarshall N tb) a b = dist (floydWarshall N tb) b a.
Proof.
  intros H0 Hsym. unfold floydWarshall, for_range.
  replace (N - 1 + 1) with N by lia.
  destruct (decide (N ≤ 0)) as [Hneg|Hpos].
  { by rewrite seqZ_nil by done. }
  assert (∀ n : nat, Z.of_nat n ≤ N →
            let tb' := foldl (λ acc k, pivot N k acc) tb (seqZ 1 (Z.of_nat n)) in
            (∃ h, fw_inv N w (Z.of_nat n) tb' h) ∧
            ∀ a b, dist tb' a b = dist tb' b a)
    as Hloop.
  { induction n as [|n IH]; intros Hn; [by eauto|].
    destruct IH as [[h Hh] Hs]; [lia|]. simpl.
    rewrite seqZ_S, foldl_snoc.
    set (tb1 := foldl (λ acc k, pivot N k acc) tb (seqZ 1 (Z.of_nat n))) in *.
    split.
    - exists (hops_after N (1 + Z.of_nat n) tb1 h).
      replace (Z.of_nat (S n)) with (1 + Z.of_nat n) by lia.
      apply pivot_preserves; [lia|].
      by replace (1 + Z.of_nat n - 1) with (Z.of_nat n) by lia.
    - apply pivot_sym; [|done]. eapply inv_diag; [done|lia]. }
  destruct (Hloop (Z.to_nat N)) as [_ Hs]; [lia|].
  rewrite Z2Nat.id in Hs by lia. done.
Qed.

(** X6: when no link cost is negative, the distances that [floydWarshall]
    computes from the input are the same in both directions. *)
Theorem floydWarshall_symmetric (N : Z) (links : list Link) (a b : Z) :
  Forall (λ l, 0 ≤ lc l) links →
  let tb := floydWarshall N (readInput_tables N links) in
  dist tb a b = dist tb b a.
Proof.
  intros Hpos tb. unfold tb.
  eapply floydWarshall_inv_sym.
  - apply fw_inv_readInput. by apply list.Forall_forall.
  - intros x y. unfold readInput_tables.
    by destruct (read_links_dist links _ (init_dist_sym N) x y) as [? _].
Qed.

Lemma floydWarshall_symmetric_witness :
  let tb := floydWarshall 3 (readInput_tables 3 links_demo) in
  dist tb 1 3 = dist tb 3 1.
Proof.
  apply (floydWarshall_symmetric 3 links_demo 1 3).
  unfold links_demo. repeat constructor; simpl; lia.
Defined.

Lemma pipeline_dist_link_le N links l a b :
  l ∈ links → joins l a b →
  dist (floydWarshall N (readInput_tables N links)) a b ≤ lc l.
Proof.
  intros Hl Hjoin. etrans; [apply floydWarshall_dist_le|].
  unfold readInput_tables.
  rewrite read_links_dist_min by apply init_dist_sym.
  apply foldr_min_le. unfold link_costs.
  apply list_elem_of_fmap. exists l. split; [done|].
  by apply list_elem_of_filter.
Qed.

Lemma walk_end_range N links i p c j :
  walk links i p c j → 1 ≤ i ≤ N → Forall (λ n, 1 ≤ n ≤ N) p → 1 ≤ j ≤ N.
Proof.
  induction 1 as [|? ? ? ? ? ? ? ? ? IH]; [done|].
  intros _ [? ?]%Forall_cons. by apply IH.
Qed.

(** X7: when no link cost is negative, no walk over declared links that
    stays on the nodes [1..N] is cheaper than the distance computed for its
    two ends. *)
Theorem floydWarshall_shortest (N : Z) (links : list Link) (i j : Z)
    (p : list Z) (c : Z) :
  Forall (λ l, 0 ≤ lc l) links →
  1 ≤ i ≤ N → Forall (λ n, 1 ≤ n ≤ N) p →
  walk links i p c j →
  dist (floydWarshall N (readInput_tables N links)) i j ≤ c.
Proof.
  intros Hpos Hi Hp Hw.
  destruct (pipeline_inv N links Hpos) as [h Hinv].
  set (tb := floydWarshall N (readInput_tables N links)) in *.
  induction Hw as [i|i n p c j l Hl Hjoin Hw IH].
  - by rewrite (inv_diag _ _ _ _ _ Hinv).
  - apply Forall_cons in Hp as [Hn Hp].
    specialize (IH Hn Hp).
    pose proof (walk_end_range N links n p c j Hw Hn Hp) as Hj.
    pose proof (inv_tri _ _ _ _ _ Hinv i j n Hi Hj Hn ltac:(lia)) as Htri.
    pose proof (pipeline_dist_link_le N links l i n Hl Hjoin) as Hlink.
    fold tb in Hlink. lia.
Qed.

Lemma floydWarshall_shortest_witness :
  dist (floydWarshall 3 (readInput_tables 3 links_demo)) 1 3 ≤ 7 + 0.
Proof.
  apply (floydWarshall_shortest 3 links_demo 1 3 [3] (7 + 0)).
  - unfold links_demo. repeat constructor; simpl; lia.
  - lia.
  - repeat constructor; lia.
  - apply (walk_hop links_demo 1 3 [] 0 3 (mkLink 1 3 7 2)).
    + unfold links_demo. set_solver.
    + left. done.
    + apply walk_here.
Defined.

(** X8: when no link cost is negative, the tables that [floydWarshall]
    computes from the input are closed: a second run over them changes no
    cell of any table. *)
Theorem floydWarshall_idempotent (N : Z) (links : list Link) :
  Forall (λ l, 0 ≤ lc l) links →
  let tb := floydWarshall N (readInput_tables N links) in
  floydWarshall N tb = tb.
Proof.
  intros Hpos tb.
  destruct (pipeline_inv N links Hpos) as [h Hinv]. fold tb in Hinv.
  unfold floydWarshall at 1, pivot.
  apply (for_range_inv (λ tb', tb' = tb)); [|done]. intros k ? Hk ->.
  apply (for_range_inv (λ tb', tb' = tb)); [|done]. intros i ? Hi ->.
  apply (for_range_inv (λ tb', tb' = tb)); [|done]. intros j ? Hj ->.
  apply relax_not_improves. intros (_ & _ & Hlt).
  pose proof (inv_tri _ _ _ _ _ Hinv i j k ltac:(lia) ltac:(lia) ltac:(lia)
                ltac:(lia)).
  lia.
Qed.

Lemma floydWarshall_idempotent_witness :
  let tb := floydWarshall 3 (readInput_tables 3 links_demo) in
  floydWarshall 3 tb = tb.
Proof.
  apply (floydWarshall_idempotent 3 links_demo).
  unfold links_demo. repeat constructor; simpl; lia.
Defined.

(** * Further properties of the planner and the optimizer *)

(** ** What stays as the input gave it *)

Lemma reassigned_refl t : reassigned t t.
Proof. exists (end_node t), (migration_cost t). by destruct t. Qed.

Lemma reassigned_assign t t' e c : reassigned t t' → reassigned t (assign t' e c).
Proof. intros (e0 & c0 & ->). by exists e, c. Qed.

Lemma Forall2_reassigned_insert ts0 ts (idx : nat) t e c :
  Forall2 reassigned ts0 ts → ts !! idx = Some t →
  Forall2 reassigned ts0 (<[idx:=assign t e c]> ts).
Proof.
  intros Hall Ht.
  destruct (Forall2_lookup_r _ _ _ _ _ Hall Ht) as (t0 & Ht0 & Hr).
  rewrite <- (list_insert_id ts0 idx t0) by done.
  apply Forall2_insert; [done|]. by apply reassigned_assign.
Qed.

Lemma reset_usage_node N nds n :
  nid (reset_usage N nds n) = nid (nds n) ∧
  (¬ 1 ≤ n ≤ N → reset_usage N nds n = nds n).
Proof.
  unfold reset_usage.
  apply (for_range_inv (λ nds', nid (nds' n) = nid (nds n) ∧
                                (¬ 1 ≤ n ≤ N → nds' n = nds n))); [|done].
  intros i nds' Hi [H1 H2]. unfold set_usage, set_node.
  destruct (Z.eqb_spec n i) as [->|]; simpl; [|done].
  split; [done|lia].
Qed.

Lemma add_usage_node nds i d n :
  nid (add_usage nds i d n) = nid (nds n) ∧
  (n ≠ i → add_usage nds i d n = nds n).
Proof.
  unfold add_usage, set_usage, set_node.
  destruct (Z.eqb_spec n i) as [->|]; simpl; [|done]. split; [done|lia].
Qed.

Lemma place_task_keeps N dist st idx ts0 (nds0 : Nodes) :
  Forall2 reassigned ts0 (tasks st) →
  (∀ n, nid (nodes st n) = nid (nds0 n) ∧
        capacity (nodes st n) = capacity (nds0 n) ∧
        (¬ 1 ≤ n ≤ N → nodes st n = nds0 n)) →
  Forall2 reassigned ts0 (tasks (place_task N dist st idx)) ∧
  (∀ n, nid (nodes (place_task N dist st idx) n) = nid (nds0 n) ∧
        capacity (nodes (place_task N dist st idx) n) = capacity (nds0 n) ∧
        (¬ 1 ≤ n ≤ N → nodes (place_task N dist st idx) n = nds0 n)).
Proof.
  intros Hts Hnds. destruct (tasks st !! idx) as [t|] eqn:Ht.
  - destruct (place_task_cases N dist st idx t Ht)
      as [(b & (Hb & _) & ->)|[_ ->]]; [|done].
    simpl. split; [by apply Forall2_reassigned_insert|].
    intros n. destruct (Hnds n) as (H1 & H2 & H3).
    destruct (add_usage_node (nodes st) b (demand t) n) as [-> Hne].
    rewrite add_usage_capacity. do 2 (split; [done|]).
    intros Hout. rewrite Hne by lia. by apply H3.
  - unfold place_task. by rewrite Ht.
Qed.

Lemma greedy_in_order_keeps N dist order st :
  let st' := greedy_in_order N dist order st in
  Forall2 reassigned (tasks st) (tasks st') ∧
  ∀ n, nid (nodes st' n) = nid (nodes st n) ∧
       capacity (nodes st' n) = capacity (nodes st n) ∧
       (¬ 1 ≤ n ≤ N → nodes st' n = nodes st n).
Proof.
  unfold greedy_in_order.
  set (st0 := {| tasks := tasks st; nodes := reset_usage N (nodes st) |}).
  assert (Forall2 reassigned (tasks st) (tasks st0) ∧
          ∀ n, nid (nodes st0 n) = nid (nodes st n) ∧
               capacity (nodes st0 n) = capacity (nodes st n) ∧
               (¬ 1 ≤ n ≤ N → nodes st0 n = nodes st n)) as H0.
  { split.
    - apply Forall2_same_length_lookup_2; [done|].
      intros i t t' Ht Ht'. simpl in Ht'. replace t' with t by congruence.
      apply reassigned_refl.
    - intros n. simpl.
      destruct (reset_usage_node N (nodes st) n) as [? ?].
      by destruct (reset_usage_spec N (nodes st) n) as [_ ?]. }
  clearbody st0. revert st0 H0.
  induction order as [|idx order IH]; intros st0 H0; [done|].
  simpl. apply IH. destruct H0. by apply place_task_keeps.
Qed.

(** X9: the planner changes nothing of a task but its end node and its
    migration cost (the number and the order of the tasks, their ids, start
    nodes and demands stay), nothing of a node but its usage, and nothing
    at all of a node outside [1..N]. *)
Theorem solveAllocationGreedy_keeps (N : Z) (dist : matrix) (st : State) :
  let st' := solveAllocationGreedy N dist st in
  Forall2 reassigned (tasks st) (tasks st') ∧
  ∀ n, nid (nodes st' n) = nid (nodes st n) ∧
       capacity (nodes st' n) = capacity (nodes st n) ∧
       (¬ 1 ≤ n ≤ N → nodes st' n = nodes st n).
Proof. apply greedy_in_order_keeps. Qed.

Section AnnealingKeeps.
Context `{DoubleArith}.
Variable N : Z.
Variable dist : matrix.
Variable rnd : nat → Z.
Variable st : State.










End AnnealingKeeps.





(** ** The only way out of the loop *)

Section AnnealingExit.
Context `{DoubleArith}.
Variable N : Z.
Variable dist : matrix.
Variable rnd : nat → Z.
Variable deadline : Z → bool.


End AnnealingExit.


(** X13: after any number of passes the running cost that the optimizer
    updates by differences is the cost of the assignment it holds, computed
    afresh, and the best cost is never above it. *)
Theorem sa_current_cost_tracked `{DoubleArith} (N : Z) (dist : matrix)
    (rnd : nat → Z) (st : State) (k : nat) :
  let s := sa_run N dist rnd k (sa_start dist st) in
  current_cost s = calculateTotalCost dist (sa_tasks s) ∧
  best_cost s ≤ current_cost s.
Proof.
  cbv zeta. split; [by destruct (sa_inv_run N dist rnd st k)|].
  induction k as [|k IH]; [done|]. rewrite sa_run_S.
  set (s := sa_run N dist rnd k (sa_start dist st)) in *.
  destruct (sa_body_cases N dist rnd s)
    as [(temp & calls & ->)|(i & t & e & calls & _ & _ & _ & _ & ->)]; simpl;
    [done|].
  destruct (Z.ltb_spec
              (current_cost s
               + (dist (start_node t) e * demand t
                  - dist (start_node t) (end_node t) * demand t))
              (best_cost s)); lia.
Qed.

(** * Further properties of the routes and the simulator *)

(** ** reconstructPath *)

Lemma follow_chain fuel nh curr e acc p :
  follow fuel nh curr e acc = Some p ↔
  ∃ q, p = acc ++ q ∧ chain nh e curr q ∧ (length q ≤ fuel)%nat.
Proof.
  revert curr acc. induction fuel as [|fuel IH]; intros curr acc; simpl.
  - destruct (Z.eqb_spec curr e) as [->|Hne]; split.
    + intros [= <-]. exists []. by rewrite app_nil_r.
    + intros ([|n q] & -> & Hq & Hlen); [by rewrite app_nil_r|simpl in Hlen; lia].
    + done.
    + intros ([|n q] & -> & Hq & Hlen); [done|simpl in Hlen; lia].
  - destruct (Z.eqb_spec curr e) as [->|Hne]; split.
    + intros [= <-]. exists []. rewrite app_nil_r. simpl. split; [done|].
      split; [done|lia].
    + intros ([|n q] & -> & Hq & Hlen); [by rewrite app_nil_r|].
      by destruct Hq as [? _].
    + intros (q & -> & Hq & Hlen)%IH. exists (nh curr e :: q).
      rewrite <- app_assoc. simpl. split; [done|]. split; [done|lia].
    + intros ([|n q] & -> & Hq & Hlen); [done|].
      destruct Hq as (_ & -> & Hq). apply IH. exists q.
      rewrite <- app_assoc. simpl in *. split; [done|]. split; [done|lia].
Qed.

Lemma chain_last nh e curr p : chain nh e curr p → last (curr :: p) = Some e.
Proof.
  revert curr. induction p as [|n p IH]; intros curr; simpl.
  - by intros ->.
  - intros (_ & _ & Hp). apply IH in Hp. by destruct p.
Qed.

(** X14: [reconstructPath] returns exactly when the nodes that [next_hop]
    gives one after the other, from the start node on, come to the end node
    (within the fuel), and what it then appends to the task's path is that
    sequence, up to the first time the end node is met and nothing after;
    when the table never leads to the end node it does not return. *)
Theorem reconstructPath_chain (fuel : nat) (nh : matrix) (t t1 : Task) :
  reconstructPath fuel nh t = Some t1 ↔
  ∃ p, chain nh (end_node t) (start_node t) p ∧ (length p ≤ fuel)%nat ∧
       t1 = set_path t (path t ++ p).
Proof.
  unfold reconstructPath.
  destruct (Z.eqb_spec (start_node t) (end_node t)) as [Heq|Hne]; split.
  - intros [= <-]. exists []. simpl. split; [done|]. split; [lia|].
    rewrite app_nil_r. by destruct t.
  - intros ([|n p] & Hp & _ & ->).
    + rewrite app_nil_r. by destruct t.
    + by destruct Hp as [? _].
  - destruct (follow _ _ _ _ _) as [p|] eqn:Hf; [|done]. intros [= <-].
    apply follow_chain in Hf as (q & -> & Hq & Hlen). by exists q.
  - intros (p & Hp & Hlen & ->).
    assert (follow fuel nh (start_node t) (end_node t) (path t)
            = Some (path t ++ p)) as ->; [|done].
    apply follow_chain. by exists p.
Qed.

(** ** The key of a link *)

(** X15: for node ids from 0 to 999 the key under which the simulator
    counts the crossings of a link holds both ends of the link: the smaller
    id is the key divided by 1000 and the larger id is the rest; and the key
    is the same in both directions, for any ids. *)
Theorem link_key_decode (u v : Z) :
  link_key u v = link_key v u ∧
  (key_range u → key_range v →
   link_key u v / 1000 = Z.min u v ∧ link_key u v mod 1000 = Z.max u v).
Proof.
  unfold link_key, key_range. split.
  - destruct (Z.ltb_spec u v), (Z.ltb_spec v u); lia.
  - intros Hu Hv. destruct (Z.ltb_spec u v).
    + rewrite (Z.add_comm (u * 1000)), Z.div_add, Z.mod_add by lia.
      rewrite Z.div_small, Z.mod_small by lia. lia.
    + rewrite (Z.add_comm (v * 1000)), Z.div_add, Z.mod_add by lia.
      rewrite Z.div_small, Z.mod_small by lia. lia.
Qed.

(** ** One step of the simulation *)

Lemma select_fold_nil adj ts idxs acc :
  (foldl (try_move adj ts) acc idxs).2 = [] →
  acc.2 = [] ∧ foldl (try_move adj ts) acc idxs = acc ∧
  ∀ i, i ∈ idxs → try_move adj ts acc i = acc.
Proof.
  revert acc. induction idxs as [|i idxs IH]; intros acc; simpl.
  - intros ->. split; [done|]. split; [done|]. by intros i ?%elem_of_nil.
  - intros Hnil. destruct (IH _ Hnil) as (Hi & Hfold & Hrest).
    assert (try_move adj ts acc i = acc) as Hacc.
    { destruct (try_move_moved adj ts acc i) as [Hsame|Hmore].
      - unfold try_move in *. destruct (ts !! i) as [t|]; [|done].
        destruct (finished t); [done|].
        destruct (_ <? _); [|done]. simpl in Hsame.
        destruct (acc.2); [|done]. by destruct (app_cons_not_nil [] [] i).
      - rewrite Hmore in Hi. by destruct (app_cons_not_nil acc.2 [] i). }
    rewrite Hacc in *. split; [done|]. split; [done|].
    intros j [->|Hj]%elem_of_cons; [done|by apply Hrest].
Qed.

(** X16: a time step hands out no slot exactly when every unfinished task
    waits for a link of bandwidth 0 or less; if some unfinished task waits
    for a link with bandwidth at least 1, some task moves in that step. *)
Theorem select_moves_none (adj : matrix) (ts : list Task) :
  select_moves adj ts = [] ↔
  Forall (λ t, finished t = false →
               adj (current_pos_node t) (next_node t) ≤ 0) ts.
Proof.
  split.
  - intros Hnil. unfold select_moves in Hnil.
    apply select_fold_nil in Hnil as (_ & _ & Hstay).
    apply Forall_lookup. intros i t Ht Hunf.
    specialize (Hstay i). unfold try_move in Hstay. rewrite Ht, Hunf in Hstay.
    simpl in Hstay. rewrite lookup_empty in Hstay. simpl in Hstay.
    destruct (Z.ltb_spec 0 (adj (current_pos_node t) (next_node t)));
      [|done].
    assert (i ∈ seq 0 (length ts)) as Hi.
    { apply elem_of_seq. apply lookup_lt_Some in Ht. lia. }
    specialize (Hstay Hi). by simplify_eq.
  - intros Hall. apply select_moves_no_bandwidth.
    intros t Ht. by apply (proj1 (list.Forall_forall _ _) Hall).
Qed.

(** ** The simulation as a whole *)

Lemma prepare_task_fresh fuel nh t t' :
  fresh t → prepare_task fuel nh t = Some t' →
  on_route t' ∧ path_idx t' = O.
Proof.
  intros (Hp & Hi & Hc). unfold prepare_task, reconstructPath.
  destruct (Z.eqb_spec (start_node t) (end_node t)) as [Heq|Hne].
  - intros [= <-]. unfold on_route. simpl. rewrite Hp, Hi, Hc, Heq. done.
  - destruct (follow _ _ _ _ _) as [p|] eqn:Hf; [|done]. simpl.
    intros [= <-]. rewrite Hp in Hf.
    apply follow_chain in Hf as (q & -> & Hq & _).
    unfold on_route. simpl. split; [|done]. split; [done|]. split.
    + by apply chain_last in Hq.
    + destruct q; simpl in *; [done|lia].
Qed.

Lemma prepare_fresh fuel nh ts ts' :
  Forall fresh ts → prepare fuel nh ts = Some ts' →
  Forall (λ t, on_route t ∧ path_idx t = O) ts'.
Proof.
  intros Hall Hp. apply mapM_Some_1 in Hp.
  eapply Forall2_Forall_r; [exact Hp|].
  eapply Forall_impl; [exact Hall|]. intros t Hfresh t' Ht'.
  by eapply prepare_task_fresh.
Qed.

Lemma sim_step_tasks adj ts lg now (Q Q' : Task → Prop) :
  (∀ t, Q t → Q' t) →
  (∀ t, Q t → finished t = false → Q' (advance t)) →
  Forall Q ts →
  Forall Q' (foldl (move_task now) (ts, lg) (select_moves adj ts)).1.
Proof.
  intros Hkeep Hadv Hall.
  destruct (select_moves_unfinished adj ts) as [Hnd Hunf].
  destruct (move_fold now _ Hnd ts lg) as [_ Hlook].
  apply Forall_lookup. intros j t'. rewrite Hlook.
  case_bool_decide as Hj.
  - destruct (Hunf j Hj) as (t & Ht & Hf). rewrite Ht. intros [= <-].
    apply Hadv; [|done]. by eapply Forall_lookup_1.
  - intros Ht. apply Hkeep. by eapply Forall_lookup_1.
Qed.

Lemma move_entries_time now ts moved :
  Forall (λ l, time l = now) (move_entries now ts moved).
Proof.
  induction moved as [|i moved IH]; [constructor|].
  rewrite move_entries_cons. destruct (ts !! i); [|done]. by constructor.
Qed.

Lemma move_entries_length now ts moved :
  (∀ i, i ∈ moved → is_Some (ts !! i)) →
  length (move_entries now ts moved) = length moved.
Proof.
  induction moved as [|i moved IH]; intros Hall; [done|].
  rewrite move_entries_cons.
  destruct (Hall i) as [t ->]; [left|]. simpl. f_equal.
  apply IH. intros j Hj. apply Hall. by right.
Qed.

Lemma sim_step_logs adj ts lg now :
  ∃ new, (foldl (move_task now) (ts, lg) (select_moves adj ts)).2 = lg ++ new ∧
         Forall (λ l, time l = now) new ∧
         length new = length (select_moves adj ts).
Proof.
  destruct (select_moves_unfinished adj ts) as [Hnd Hunf].
  destruct (move_fold now _ Hnd ts lg) as [-> _].
  exists (move_entries now ts (select_moves adj ts)).
  split; [done|]. split; [apply move_entries_time|].
  apply move_entries_length. intros i Hi.
  destruct (Hunf i Hi) as (t & -> & _). by eexists.
Qed.

Lemma move_fold_count now moved ts lg :
  length lg = sum_list (path_idx <$> ts) →
  length (foldl (move_task now) (ts, lg) moved).2
  = sum_list (path_idx <$> (foldl (move_task now) (ts, lg) moved).1).
Proof.
  revert ts lg. induction moved as [|i moved IH]; intros ts lg Hlen; [done|].
  simpl foldl. destruct (ts !! i) as [t|] eqn:Hi.
  - rewrite (move_task_Some _ _ _ _ t) by done. apply IH.
    rewrite length_app, list_fmap_insert. simpl.
    pose proof (sum_list_insert (path_idx <$> ts) i (path_idx t)
                  (S (path_idx t))) as Hsum.
    rewrite list_lookup_fmap, Hi in Hsum. specialize (Hsum eq_refl). lia.
  - rewrite move_task_None by done. by apply IH.
Qed.

Lemma sim_loop_invariant (I : Sim → Prop) adj :
  (∀ s, I s → forallb finished (sim_tasks s) = false →
        select_moves adj (sim_tasks s) ≠ [] →
        I (mkSim (foldl (move_task (current_time s + 1))
                    (sim_tasks s, logs s) (select_moves adj (sim_tasks s))).1
                 (foldl (move_task (current_time s + 1))
                    (sim_tasks s, logs s) (select_moves adj (sim_tasks s))).2
                 (current_time s + 1))) →
  ∀ fuel s r, I s → sim_loop fuel adj s = Some r →
  (forallb finished (sim_tasks r) = true ∧ I r) ∨
  (∃ s', I s' ∧ forallb finished (sim_tasks s') = false ∧
         r = mkSim (sim_tasks s') (logs s') (current_time s' + 1)).
Proof.
  intros Hstep. induction fuel as [|fuel IH]; intros s r Hs.
  - simpl. destruct (forallb finished (sim_tasks s)) eqn:Hfin; [|done].
    intros [= <-]. by left.
  - rewrite sim_loop_unfold.
    destruct (forallb finished (sim_tasks s)) eqn:Hfin.
    { intros [= <-]. by left. }
    destruct (select_moves adj (sim_tasks s)) as [|i moved] eqn:Hsel.
    + intros [= <-]. right. by exists s.
    + apply IH. specialize (Hstep s Hs Hfin). rewrite Hsel in Hstep.
      by apply Hstep.
Qed.

Lemma prepare_settled fuel nh ts :
  Forall (λ t, start_node t = end_node t) ts →
  prepare fuel nh ts = Some (settled <$> ts).
Proof.
  intros Hall. apply mapM_Some_2.
  induction Hall as [|t ts Ht Hall IH]; csimpl; constructor; [|done].
  unfold prepare_task. by rewrite (proj2 (Z.eqb_eq _ _) Ht).
Qed.

(** X17: when every task is to end on the node it starts on (in
    particular when there is no task at all), the simulation takes no step
    and logs nothing, whatever the tables hold: it only marks every task as
    finished. *)
Theorem simulateMigration_nothing_to_move (fuel : nat) (tb : Tables)
    (ts : list Task) :
  Forall (λ t, start_node t = end_node t) ts →
  simulateMigration fuel tb ts = Some (mkSim (settled <$> ts) [] 0).
Proof.
  intros Hall. unfold simulateMigration.
  rewrite prepare_settled by done. simpl.
  assert (forallb finished (settled <$> ts) = true) as Hfin.
  { clear. by induction ts. }
  destruct fuel; simpl; by rewrite Hfin.
Qed.

Lemma simulateMigration_nothing_to_move_witness :
  simulateMigration 0 globals0 [mkTask 1 2 5 2 0 [] 0 2 false]
  = Some (mkSim [mkTask 1 2 5 2 0 [] 0 2 true] [] 0).
Proof.
  apply (simulateMigration_nothing_to_move 0 globals0
           [mkTask 1 2 5 2 0 [] 0 2 false]).
  repeat constructor.
Defined.

Lemma simulateMigration_demo :
  simulateMigration 10
    (floydWarshall 4 (readInput_tables 4 (link_lines input_demo))) movers_demo
  = Some sim_demo.
Proof. vm_compute. reflexivity. Qed.

Lemma movers_demo_fresh : Forall fresh movers_demo.
Proof. repeat constructor. Qed.

Lemma StronglySorted_same_time now new :
  Forall (λ l, time l = now) new → StronglySorted not_after new.
Proof.
  induction 1 as [|l new Hl Hnew IH]; constructor; [done|].
  eapply Forall_impl; [exact Hnew|]. unfold not_after. simpl. lia.
Qed.

(** X18: the log that the simulation returns is in the order of the time
    steps, and every entry carries a step number from 1 to
    [total_time_steps]. *)
Theorem simulateMigration_log_ordered (fuel : nat) (tb : Tables)
    (ts : list Task) (r : Sim) :
  simulateMigration fuel tb ts = Some r →
  StronglySorted not_after (logs r) ∧
  Forall (λ l, 1 ≤ time l ≤ total_time_steps r) (logs r).
Proof.
  unfold simulateMigration.
  destruct (prepare fuel (next_hop tb) ts) as [ts'|]; [|done]. simpl.
  intros Hr.
  set (I := λ s : Sim, 0 ≤ current_time s ∧ StronglySorted not_after (logs s) ∧
                       Forall (λ l, 1 ≤ time l ≤ current_time s) (logs s)).
  assert (I (mkSim ts' [] 0)) as H0.
  { unfold I. simpl. split; [lia|]. split; constructor. }
  destruct (sim_loop_invariant I (adj_bandwidth tb)) with (3 := Hr)
    as [[_ (_ & Hss & Hall)]|(s' & (Hct & Hss & Hall) & _ & ->)]; [|done..|].
  - intros s (Hct & Hss & Hall) _ _.
    destruct (sim_step_logs (adj_bandwidth tb) (sim_tasks s) (logs s)
                (current_time s + 1)) as (new & -> & Hnew & _).
    unfold I. simpl. split; [lia|]. split.
    + apply StronglySorted_app_2; [|done|by eapply StronglySorted_same_time].
      intros x1 x2 H1 H2.
      apply (proj1 (list.Forall_forall _ _) Hall) in H1.
      apply (proj1 (list.Forall_forall _ _) Hnew) in H2.
      unfold not_after. lia.
    + apply Forall_app. split.
      * eapply Forall_impl; [exact Hall|]. simpl. lia.
      * eapply Forall_impl; [exact Hnew|]. simpl. lia.
  - simpl. split; [done|].
    eapply Forall_impl; [exact Hall|]. unfold total_time_steps. simpl. lia.
Qed.

Lemma simulateMigration_log_ordered_witness :
  StronglySorted not_after (logs sim_demo) ∧
  Forall (λ l, 1 ≤ time l ≤ total_time_steps sim_demo) (logs sim_demo).
Proof.
  apply (simulateMigration_log_ordered 10
           (floydWarshall 4 (readInput_tables 4 (link_lines input_demo)))
           movers_demo sim_demo).
  exact simulateMigration_demo.
Defined.

Lemma on_route_advance t :
  on_route t → finished t = false → on_route (advance t).
Proof.
  unfold on_route. intros (Hpos & Hlast & Hfin) Hunf. rewrite Hunf in Hfin.
  simpl. split; [done|]. split; [done|]. rewrite Hunf.
  destruct (Nat.leb_spec (length (path t)) (S (path_idx t))); lia.
Qed.

Lemma on_route_arrived t :
  on_route t → finished t = true → current_pos_node t = end_node t.
Proof.
  unfold on_route. intros (Hpos & Hlast & Hfin) Hdone. rewrite Hdone in Hfin.
  rewrite Hpos, nth_lookup, Hfin.
  rewrite last_lookup in Hlast. simpl in Hlast. by rewrite Hlast.
Qed.

Lemma simulateMigration_arrives_aux fuel tb ts r :
  simulateMigration fuel tb ts = Some r → Forall fresh ts →
  Forall on_route (sim_tasks r).
Proof.
  unfold simulateMigration.
  destruct (prepare fuel (next_hop tb) ts) as [ts'|] eqn:Hp; [|done]. simpl.
  intros Hr Hfresh.
  assert (Forall on_route ts') as H0.
  { eapply Forall_impl; [by eapply prepare_fresh|]. by intros t [? _]. }
  destruct (sim_loop_invariant (λ s, Forall on_route (sim_tasks s))
              (adj_bandwidth tb)) with (3 := Hr)
    as [[_ Hall]|(s' & Hall & _ & ->)]; [|done..].
  intros s Hs _ _. simpl.
  by apply (sim_step_tasks _ _ _ _ on_route on_route);
    [|apply on_route_advance|].
Qed.

(** X19: started on tasks as [readInput] creates them, the simulation
    keeps every task on its route (the start node, then the path built for
    it, which ends on the end node), at the place that [path_idx] counts up
    to; so every task that it reports as finished stands on its end node,
    whether the run ended with all tasks finished or on a stall. *)
Theorem simulateMigration_arrives (fuel : nat) (tb : Tables)
    (ts : list Task) (r : Sim) :
  simulateMigration fuel tb ts = Some r →
  Forall fresh ts →
  Forall (λ t, on_route t ∧
               (finished t = true → current_pos_node t = end_node t))
         (sim_tasks r).
Proof.
  intros Hr Hfresh.
  eapply Forall_impl; [by eapply simulateMigration_arrives_aux|].
  intros t Ht. split; [done|]. by apply on_route_arrived.
Qed.

Lemma simulateMigration_arrives_witness :
  Forall (λ t, on_route t ∧
               (finished t = true → current_pos_node t = end_node t))
         (sim_tasks sim_demo).
Proof.
  apply (simulateMigration_arrives 10
           (floydWarshall 4 (readInput_tables 4 (link_lines input_demo)))
           movers_demo sim_demo).
  - exact simulateMigration_demo.
  - exact movers_demo_fresh.
Defined.

(** X20: started on tasks as [readInput] creates them, the simulation logs
    one entry for each hop a task makes: the log has as many entries as the
    tasks' [path_idx] add up to, which is the total length of the paths
    when the run ends with every task finished. *)
Theorem simulateMigration_log_counts_hops (fuel : nat) (tb : Tables)
    (ts : list Task) (r : Sim) :
  simulateMigration fuel tb ts = Some r →
  Forall fresh ts →
  length (logs r) = sum_list (path_idx <$> sim_tasks r) ∧
  (forallb finished (sim_tasks r) = true →
   length (logs r) = sum_list ((λ t, length (path t)) <$> sim_tasks r)).
Proof.
  intros Hr Hfresh.
  pose proof (simulateMigration_arrives_aux fuel tb ts r Hr Hfresh) as Hroute.
  revert Hr. unfold simulateMigration.
  destruct (prepare fuel (next_hop tb) ts) as [ts'|] eqn:Hp; [|done]. simpl.
  intros Hr.
  assert (length (logs r) = sum_list (path_idx <$> sim_tasks r)) as Hcount.
  { assert (sum_list (path_idx <$> ts') = O) as H0.
    { pose proof (prepare_fresh _ _ _ _ Hfresh Hp) as Hall.
      clear -Hall. induction Hall as [|t ts' [_ Ht] _ IH]; csimpl; [done|].
      by rewrite Ht, IH. }
    destruct (sim_loop_invariant
                (λ s, length (logs s) = sum_list (path_idx <$> sim_tasks s))
                (adj_bandwidth tb)) with (3 := Hr)
      as [[_ Hc]|(s' & Hc & _ & ->)]; [|by rewrite ?H0..].
    intros s Hs _ _. simpl. by apply move_fold_count. }
  split; [done|]. intros Hfin. rewrite Hcount. f_equal.
  apply Is_true_true, forallb_True in Hfin. apply Forall_fmap_ext.
  rewrite list.Forall_forall in Hfin, Hroute. apply list.Forall_forall.
  intros t Ht. specialize (Hfin t Ht). specialize (Hroute t Ht).
  destruct Hroute as (_ & _ & Hidx). by destruct (finished t).
Qed.

Lemma simulateMigration_log_counts_hops_witness :
  length (logs sim_demo) = sum_list (path_idx <$> sim_tasks sim_demo) ∧
  (forallb finished (sim_tasks sim_demo) = true →
   length (logs sim_demo)
   = sum_list ((λ t, length (path t)) <$> sim_tasks sim_demo)).
Proof.
  apply (simulateMigration_log_counts_hops 10
           (floydWarshall 4 (readInput_tables 4 (link_lines input_demo)))
           movers_demo sim_demo).
  - exact simulateMigration_demo.
  - exact movers_demo_fresh.
Defined.

(** X21: started on tasks as [readInput] creates them, the simulation
    moves a task at most one hop per time step, so no task has made more
    hops than [total_time_steps]; and every step but a last one that stalls
    logs at least one move, so [total_time_steps] is at most the number of
    log entries, plus one when the run ends on a stall. *)
Theorem simulateMigration_steps (fuel : nat) (tb : Tables) (ts : list Task)
    (r : Sim) :
  simulateMigration fuel tb ts = Some r →
  Forall fresh ts →
  Forall (λ t, Z.of_nat (path_idx t) ≤ total_time_steps r) (sim_tasks r) ∧
  total_time_steps r
    ≤ Z.of_nat (length (logs r))
      + (if forallb finished (sim_tasks r) then 0 else 1).
Proof.
  unfold simulateMigration.
  destruct (prepare fuel (next_hop tb) ts) as [ts'|] eqn:Hp; [|done]. simpl.
  intros Hr Hfresh. unfold total_time_steps.
  set (I := λ s : Sim,
         Forall (λ t, Z.of_nat (path_idx t) ≤ current_time s) (sim_tasks s) ∧
         current_time s ≤ Z.of_nat (length (logs s))).
  assert (I (mkSim ts' [] 0)) as H0.
  { unfold I. simpl. split; [|done].
    eapply Forall_impl; [by eapply prepare_fresh|].
    intros t [_ ->]. simpl. lia. }
  destruct (sim_loop_invariant I (adj_bandwidth tb)) with (3 := Hr)
    as [[Hfin [Hall Hct]]|(s' & [Hall Hct] & Hunf & ->)]; [|done|..].
  - intros s [Hall Hct] _ Hmoved. unfold I. simpl. split.
    + apply (sim_step_tasks _ _ _ _
               (λ t, Z.of_nat (path_idx t) ≤ current_time s)); [..|done].
      * intros t ?. lia.
      * intros t ? _. simpl. lia.
    + destruct (sim_step_logs (adj_bandwidth tb) (sim_tasks s) (logs s)
                  (current_time s + 1)) as (new & -> & _ & Hlen).
      rewrite length_app, Hlen.
      destruct (select_moves (adj_bandwidth tb) (sim_tasks s)); [done|].
      simpl. lia.
  - rewrite Hfin. split; [done|lia].
  - simpl. rewrite Hunf. split; [|lia].
    eapply Forall_impl; [exact Hall|]. simpl. lia.
Qed.

Lemma simulateMigration_steps_witness :
  Forall (λ t, Z.of_nat (path_idx t) ≤ total_time_steps sim_demo)
         (sim_tasks sim_demo) ∧
  total_time_steps sim_demo
    ≤ Z.of_nat (length (logs sim_demo))
      + (if forallb finished (sim_tasks sim_demo) then 0 else 1).
Proof.
  apply (simulateMigration_steps 10
           (floydWarshall 4 (readInput_tables 4 (link_lines input_demo)))
           movers_demo sim_demo).
  - exact simulateMigration_demo.
  - exact movers_demo_fresh.
Defined.

(** * Further properties of the output *)

(** ** printOutput *)

Lemma Zsum_Permutation l k : l ≡ₚ k → Zsum l = Zsum k.
Proof. induction 1; simpl; lia. Qed.

Lemma by_id_sorted ts :
  merge_sort by_id ts ≡ₚ ts ∧ StronglySorted by_id (merge_sort by_id ts).
Proof.
  split; [apply merge_sort_Permutation|].
  apply StronglySorted_merge_sort.
  - intros a b c. unfold by_id. lia.
  - intros a b. unfold by_id. lia.
Qed.

Lemma printOutput_blocks N st s :
  printOutput N st s =
    (task_line <$> merge_sort by_id (sim_tasks s))
    ++ (node_line (nodes st) <$> seqZ 1 N)
    ++ [[Zsum (migration_cost <$> sim_tasks s)]]
    ++ [[total_time_steps s]]
    ++ (log_line <$> logs s).
Proof.
  unfold printOutput. rewrite foldl_add_Zsum, Z.add_0_l.
  rewrite (Zsum_Permutation (migration_cost <$> merge_sort by_id (sim_tasks s))
             (migration_cost <$> sim_tasks s)); [done|].
  apply fmap_Permutation, merge_sort_Permutation.
Qed.

(** X22: the output lists every task once, in ascending order of the ids
    whatever the order the tasks were read in, then the nodes 1 to [N] in
    order, then the total, which is the sum of the migration costs of all
    tasks, then the number of steps and the log in its own order; it has a
    line for each task, node and log entry and two more. *)
Theorem printOutput_layout (N : Z) (st : State) (s : Sim) :
  ∃ sorted,
    sorted ≡ₚ sim_tasks s ∧ StronglySorted by_id sorted ∧
    printOutput N st s =
      (task_line <$> sorted) ++ (node_line (nodes st) <$> seqZ 1 N)
      ++ [[Zsum (migration_cost <$> sim_tasks s)]]
      ++ [[total_time_steps s]] ++ (log_line <$> logs s) ∧
    length (printOutput N st s)
    = (length (sim_tasks s) + Z.to_nat N + 2 + length (logs s))%nat.
Proof.
  exists (merge_sort by_id (sim_tasks s)).
  destruct (by_id_sorted (sim_tasks s)) as [Hperm Hsorted].
  do 2 (split; [done|]). split; [apply printOutput_blocks|].
  rewrite printOutput_blocks, !length_app, !length_fmap, length_seqZ, Hperm.
  simpl. lia.
Qed.

(** ** The plan survives the simulation *)

Lemma prepare_task_line fuel nh t t' :
  prepare_task fuel nh t = Some t' →
  shape t' = shape t ∧ task_line t' = task_line t.
Proof.
  unfold prepare_task, reconstructPath.
  destruct (Z.eqb_spec (start_node t) (end_node t)); [by intros [= <-]|].
  destruct (follow _ _ _ _ _); [|done]. simpl. by intros [= <-].
Qed.

Lemma prepare_lines fuel nh ts ts' :
  prepare fuel nh ts = Some ts' →
  shape <$> ts' = shape <$> ts ∧ task_line <$> ts' = task_line <$> ts.
Proof.
  intros Hp%mapM_Some_1.
  induction Hp as [|t t' ts ts' Ht _ [IH1 IH2]]; [done|].
  apply prepare_task_line in Ht as [H1 H2]. csimpl.
  by rewrite H1, H2, IH1, IH2.
Qed.

Lemma move_task_lines now acc idx :
  shape <$> (move_task now acc idx).1 = shape <$> acc.1 ∧
  task_line <$> (move_task now acc idx).1 = task_line <$> acc.1.
Proof.
  unfold move_task. destruct (acc.1 !! idx) as [t|] eqn:Hi; [|done]. simpl.
  rewrite !list_fmap_insert.
  split; apply list_insert_id; by rewrite list_lookup_fmap, Hi.
Qed.

Lemma move_fold_lines now moved acc :
  shape <$> (foldl (move_task now) acc moved).1 = shape <$> acc.1 ∧
  task_line <$> (foldl (move_task now) acc moved).1 = task_line <$> acc.1.
Proof.
  revert acc. induction moved as [|i moved IH]; intros acc; [done|]. simpl.
  destruct (IH (move_task now acc i)) as [-> ->]. apply move_task_lines.
Qed.

Lemma simulateMigration_lines fuel tb ts r :
  simulateMigration fuel tb ts = Some r →
  shape <$> sim_tasks r = shape <$> ts ∧
  task_line <$> sim_tasks r = task_line <$> ts.
Proof.
  unfold simulateMigration.
  destruct (prepare fuel (next_hop tb) ts) as [ts'|] eqn:Hp; [|done]. simpl.
  intros Hr. apply prepare_lines in Hp as [<- <-].
  destruct (sim_loop_invariant
              (λ s, shape <$> sim_tasks s = shape <$> ts' ∧
                    task_line <$> sim_tasks s = task_line <$> ts')
              (adj_bandwidth tb)) with (3 := Hr)
    as [[_ Hall]|(s' & Hall & _ & ->)]; [|done..].
  intros s [<- <-] _ _. simpl. apply move_fold_lines.
Qed.

(** X23: the simulation changes no task's id, start node, demand, end node
    or migration cost, and neither adds nor drops a task: what it prints of
    the tasks afterwards is what the optimizer decided. *)
Theorem simulateMigration_keeps_plan (fuel : nat) (tb : Tables)
    (ts : list Task) (r : Sim) :
  simulateMigration fuel tb ts = Some r →
  length (sim_tasks r) = length ts ∧
  demand <$> sim_tasks r = demand <$> ts ∧
  task_line <$> sim_tasks r = task_line <$> ts.
Proof.
  intros [Hshape Hline]%simulateMigration_lines.
  split; [by rewrite <- (length_fmap task_line), Hline, length_fmap|].
  split; [|done].
  apply (f_equal (fmap snd)) in Hshape.
  by rewrite <- !list_fmap_compose in Hshape.
Qed.

Lemma simulateMigration_keeps_plan_witness :
  length (sim_tasks sim_demo) = length movers_demo ∧
  demand <$> sim_tasks sim_demo = demand <$> movers_demo ∧
  task_line <$> sim_tasks sim_demo = task_line <$> movers_demo.
Proof.
  apply (simulateMigration_keeps_plan 10
           (floydWarshall 4 (readInput_tables 4 (link_lines input_demo)))).
  exact simulateMigration_demo.
Defined.

(** ** The output of a run *)







(** * Further properties: staying inside the arrays, and who moves first *)

(** X25: whatever the link costs, negative ones included, the routing
    table that [floydWarshall] computes from the input sends every pair of
    nodes of [1..N] to a node of [1..N]; so the nodes that [reconstructPath]
    appends for a task that starts and ends in [1..N] all lie in [1..N]. *)
Theorem next_hop_stays_inside (N : Z) (links : list Link) (i j : Z) :
  let tb := floydWarshall N (readInput_tables N links) in
  1 ≤ i ≤ N → 1 ≤ j ≤ N →
  1 ≤ next_hop tb i j ≤ N ∧
  ∀ fuel acc p, follow fuel (next_hop tb) i j acc = Some p →
                Forall (λ n, 1 ≤ n ≤ N) acc → Forall (λ n, 1 ≤ n ≤ N) p.
Proof.
  intros tb Hi Hj.
  assert (∀ a b, 1 ≤ a ≤ N → 1 ≤ b ≤ N → 1 ≤ next_hop tb a b ≤ N) as Hin.
  { unfold tb, floydWarshall, pivot.
    set (P := λ tb' : Tables,
           ∀ a b, 1 ≤ a ≤ N → 1 ≤ b ≤ N → 1 ≤ next_hop tb' a b ≤ N).
    apply (for_range_inv P).
    - intros k tb1 Hk H1. apply (for_range_inv P); [|done].
      intros i' tb2 Hi' H2. apply (for_range_inv P); [|done].
      intros j' tb3 Hj' H3 a b Ha Hb.
      destruct (decide ((a, b) = (i', j'))) as [[= -> ->]|Hne].
      + destruct (relax_here k i' j' tb3) as [_ ->].
        case_bool_decide; apply H3; lia.
      + destruct (relax_elsewhere k i' j' tb3 a b Hne) as [_ ->]. by apply H3.
    - intros a b Ha Hb. by rewrite readInput_next_hop. }
  split; [by apply Hin|].
  intros fuel. generalize i Hi. clear i Hi.
  induction fuel as [|fuel IH]; intros i Hi acc p; simpl.
  - destruct (i =? j); [|done]. by intros [= <-].
  - destruct (i =? j); [by intros [= <-]|].
    intros Hf Hacc. apply (IH _ (Hin i j Hi Hj) _ _ Hf).
    apply Forall_app. split; [done|]. constructor; [|done]. by apply Hin.
Qed.

Lemma next_hop_stays_inside_witness :
  let tb := floydWarshall 3 (readInput_tables 3 links_demo) in
  1 ≤ next_hop tb 1 3 ≤ 3 ∧
  ∀ fuel acc p, follow fuel (next_hop tb) 1 3 acc = Some p →
                Forall (λ n, 1 ≤ n ≤ 3) acc → Forall (λ n, 1 ≤ n ≤ 3) p.
Proof. apply (next_hop_stays_inside 3 links_demo 1 3); lia. Defined.

Lemma select_fold_sublist adj ts idxs acc :
  ∃ m, (foldl (try_move adj ts) acc idxs).2 = acc.2 ++ m ∧
       m `sublist_of` idxs.
Proof.
  revert acc. induction idxs as [|i idxs IH]; intros acc.
  { exists []. by rewrite app_nil_r. }
  simpl. destruct (IH (try_move adj ts acc i)) as (m & -> & Hsub).
  destruct (try_move_moved adj ts acc i) as [->| ->].
  - exists m. split; [done|]. by apply sublist_cons.
  - exists (i :: m). rewrite <- app_assoc. split; [done|]. by apply sublist_skip.
Qed.

Lemma select_fold_stay adj ts idxs acc :
  (∀ j, j ∈ idxs → try_move adj ts acc j = acc) →
  foldl (try_move adj ts) acc idxs = acc.
Proof.
  induction idxs as [|i idxs IH]; intros Hstay; [done|]. simpl.
  rewrite Hstay by left. apply IH. intros j Hj. apply Hstay. by right.
Qed.

(** X26: within a time step the link slots go to the tasks in the order
    of their indices, each task at most once; and the first unfinished task
    that waits for a link with bandwidth at least 1, every unfinished task
    before it waiting for a link without bandwidth, is the first to move. *)
Theorem select_moves_priority (adj : matrix) (ts : list Task) :
  select_moves adj ts `sublist_of` seq 0 (length ts) ∧
  ∀ i t, ts !! i = Some t → finished t = false →
         0 < adj (current_pos_node t) (next_node t) →
         (∀ j t', (j < i)%nat → ts !! j = Some t' → finished t' = false →
                  adj (current_pos_node t') (next_node t') ≤ 0) →
         head (select_moves adj ts) = Some i.
Proof.
  unfold select_moves. split.
  - destruct (select_fold_sublist adj ts (seq 0 (length ts)) (∅, []))
      as (m & -> & Hsub). done.
  - intros i t Ht Hunf Hbw Hbefore.
    pose proof (lookup_lt_Some _ _ _ Ht) as Hlt.
    replace (length ts) with (i + S (length ts - S i))%nat by lia.
    rewrite seq_app, foldl_app, (select_fold_stay adj ts (seq 0 i)).
    + cbn [seq foldl Nat.add].
      assert (try_move adj ts (∅, []) i
              = (<[link_key (current_pos_node t) (next_node t) := 0 + 1]> ∅,
                 [] ++ [i])) as ->.
      { unfold try_move. rewrite Ht, Hunf. simpl. rewrite lookup_empty. simpl.
        by rewrite (proj2 (Z.ltb_lt _ _) Hbw). }
      destruct (select_fold_sublist adj ts (seq (S i) (length ts - S i))
                  (<[link_key (current_pos_node t) (next_node t) := 0 + 1]> ∅,
                   [] ++ [i])) as (m & -> & _).
      done.
    + intros j Hj%elem_of_seq. unfold try_move.
      destruct (ts !! j) as [t'|] eqn:Ht'; [|done].
      destruct (finished t') eqn:Hf'; [done|]. simpl.
      rewrite lookup_empty. simpl.
      specialize (Hbefore j t' ltac:(lia) Ht' Hf').
      by rewrite (proj2 (Z.ltb_ge _ _) Hbefore).
Qed.
